(** * VLisp front end: tokenizer and list builder

    A shallow embedding of [search], [tokenize] (with its [appendText]
    closure), [getLists] and the two stream printers of
    examples/VLisp/VLisp.cpp, followed by the properties established
    about them.

    Conventions of the embedding.
    - A [char const *] into the source buffer is the offset ([nat]) of the
      character it points at; the buffer is the contents of the
      [std::string] handed to [tokenize] through [c_str()], so that reading
      at its length yields the terminating NUL.
    - The program is built with assertions enabled. A failing [assert]
      aborts the process; this is the [Abort] outcome, carrying the
      assertion's message. An abort of [tokenize] is a lexical error, an
      abort of [getLists] a parse error.
    - A [ListNode *] is the path (child positions from the root) of the
      node inside the tree owned by the root pointer; nodes never move,
      so a path stays valid for the whole run.
    - A scalar member that is never written holds an indeterminate value;
      it is [None] in the embedding.
    - [long] has 64 bits; a [float] is an IEEE 754 binary32 number, and
      [strtof] rounds to the nearest one, ties to even. *)

From Stdlib Require Import ZArith QArith Ascii String DecimalString.
From stdpp Require Import base tactics option list.

Local Open Scope nat_scope.
Local Open Scope list_scope.

(** ** Characters *)

Definition NUL : ascii := "000"%char.
Definition TAB : ascii := "009"%char.
Definition LF : ascii := "010"%char.
Definition VT : ascii := "011"%char.
Definition FF : ascii := "012"%char.
Definition CR : ascii := "013"%char.
Definition SPACE : ascii := " "%char.
Definition DQUOTE : ascii := "034"%char.
Definition LPAREN : ascii := "("%char.
Definition RPAREN : ascii := ")"%char.

(** [*p] on the buffer [buf]: the byte at offset [p], the terminator at the
    end. *)
Definition deref (buf : list ascii) (p : nat) : ascii :=
  default NUL (buf !! p).

(** The C string starting at offset [p]: the characters before the first
    NUL. This is what a C library function receiving [buf + p] can read. *)
Fixpoint until_nul (s : list ascii) : list ascii :=
  match s with
  | [] => []
  | c :: s' => if Ascii.eqb c NUL then [] else c :: until_nul s'
  end.

Definition c_string (buf : list ascii) (p : nat) : list ascii :=
  until_nul (drop p buf).

(** ** Outcomes: a value, or an assertion failure *)

Inductive outcome (A : Type) : Type :=
| Ret (a : A)
| Abort (msg : string).
Arguments Ret {A} a.
Arguments Abort {A} msg.

Definition bind {A B : Type} (c : outcome A) (k : A -> outcome B) : outcome B :=
  match c with
  | Ret a => k a
  | Abort msg => Abort msg
  end.

Notation "x <- c ;; k" := (bind c (fun x => k))
  (at level 100, c at next level, right associativity).
Notation "c ;;; k" := (bind c (fun _ => k))
  (at level 100, right associativity).

Definition assert (cond : bool) (msg : string) : outcome unit :=
  if cond then Ret tt else Abort msg.

Definition aborts {A : Type} (c : outcome A) : Prop :=
  exists msg, c = Abort msg.

(** ** Tokens *)

Inductive TokenType : Type := NAME | STRING | LP | RP | I32 | F32.

Global Instance TokenType_eq_dec : EqDecision TokenType.
Proof. solve_decision. Defined.

(** The value of a [float]: a finite binary32 number, given by its sign
    and by the rational it is equal to, or an infinity or a NaN. *)
Inductive float : Type :=
| Fnum (neg : bool) (q : Q)
| Finf (neg : bool)
| Fnan (neg : bool).

Definition float_zero : float := Fnum false 0%Q.

Module Token.
Record t : Type := mk {
  type : TokenType;
  pStart : nat;
  pEnd : nat;
  f32 : float;
  i32 : Z
}.
End Token.
Abbreviation Token := Token.t.

Abbreviation TokenArray := (list Token).

(** [arr += elem] *)
Definition push_back {T : Type} (arr : list T) (elem : T) : list T :=
  arr ++ [elem].

(** The text a token spans in the buffer. *)
Definition span_text (buf : list ascii) (t : Token) : list ascii :=
  take (Token.pEnd t - Token.pStart t) (drop (Token.pStart t) buf).

(** ** [search]

    The first position in [pBegin, pEnd) at which the whole of [pPat]
    occurs without running past [pEnd]. *)

(** The inner loop: compares [pPat] from [pJter] on with the text at
    [pIter + offset]; returns the final [match] flag and what is left of
    the pattern at [pJter]. *)
Fixpoint search_inner (buf : list ascii) (pJter : list ascii)
    (pIter offset pEnd : nat) : bool * list ascii :=
  match pJter with
  | [] => (true, [])
  | c :: pJter' =>
      if pIter + offset =? pEnd then (true, pJter)
      else if negb (Ascii.eqb c (deref buf (pIter + offset))) then (false, pJter)
      else search_inner buf pJter' pIter (S offset) pEnd
  end.

(** The outer loop, [n] iterations from [pIter] on. *)
Fixpoint search_outer (buf : list ascii) (pPat : list ascii)
    (n pIter pEnd : nat) : option nat :=
  match n with
  | 0 => None
  | S n' =>
      let '(matched, pJter) := search_inner buf pPat pIter 0 pEnd in
      if matched && bool_decide (pJter = []) then Some pIter
      else search_outer buf pPat n' (S pIter) pEnd
  end.

Definition search (buf : list ascii) (pBegin pEnd : nat) (pPat : list ascii)
    : option nat :=
  search_outer buf pPat (pEnd - pBegin) pBegin pEnd.

(** ** The C library: [strtol] and [strtof]

    Both receive a C string and return the converted value together with
    the number of characters consumed ([*endptr - nptr]); zero characters
    consumed means that no conversion was performed. *)

Fixpoint span_while (p : ascii -> bool) (s : list ascii)
    : list ascii * list ascii :=
  match s with
  | [] => ([], [])
  | c :: s' =>
      if p c then let '(a, b) := span_while p s' in (c :: a, b)
      else ([], s)
  end.

Definition code (c : ascii) : Z := Z.of_nat (nat_of_ascii c).

Definition isspace (c : ascii) : bool :=
  (Ascii.eqb c SPACE || (9 <=? code c) && (code c <=? 13))%Z.

Definition isdigit (c : ascii) : bool :=
  (48 <=? code c)%Z && (code c <=? 57)%Z.

Definition isxdigit (c : ascii) : bool :=
  isdigit c || (65 <=? code c)%Z && (code c <=? 70)%Z
            || (97 <=? code c)%Z && (code c <=? 102)%Z.

Definition isalnum_ (c : ascii) : bool :=
  isdigit c || (65 <=? code c)%Z && (code c <=? 90)%Z
            || (97 <=? code c)%Z && (code c <=? 122)%Z
            || Ascii.eqb c "_"%char.

Definition tolower (c : ascii) : ascii :=
  if (65 <=? code c)%Z && (code c <=? 90)%Z
  then ascii_of_nat (nat_of_ascii c + 32) else c.

Definition digit_value (c : ascii) : Z :=
  if isdigit c then code c - 48
  else if (97 <=? code (tolower c))%Z then code (tolower c) - 87
  else 0.

Definition digits_value (base : Z) (ds : list ascii) : Z :=
  fold_left (fun acc d => acc * base + digit_value d)%Z ds 0%Z.

(** An optional sign: whether it is a minus, how many characters it
    takes, and the rest. *)
Definition scan_sign (s : list ascii) : bool * nat * list ascii :=
  match s with
  | c :: s' =>
      if Ascii.eqb c "-"%char then (true, 1, s')
      else if Ascii.eqb c "+"%char then (false, 1, s')
      else (false, 0, s)
  | [] => (false, 0, s)
  end.

Definition LONG_MAX : Z := 2 ^ 63 - 1.
Definition LONG_MIN : Z := - 2 ^ 63.

(** [strtol(s, &end, 10)] for a 64-bit [long]: white space, an optional
    sign, decimal digits; the value saturates at the ends of the range. *)
Definition strtol (s : list ascii) : Z * nat :=
  let '(ws, s1) := span_while isspace s in
  let '(neg, sg, s2) := scan_sign s1 in
  let '(ds, _) := span_while isdigit s2 in
  match ds with
  | [] => (0%Z, 0)
  | _ =>
      let v := digits_value 10 ds in
      let v := if neg then (- v)%Z else v in
      (Z.max LONG_MIN (Z.min LONG_MAX v), length ws + sg + length ds)
  end.

(** The conversion [long] to [int32_t]: reduction modulo [2^32] into the
    signed range. *)
Definition to_int32 (v : Z) : Z :=
  ((v + 2 ^ 31) mod 2 ^ 32 - 2 ^ 31)%Z.

(** [m * base ^ e] as an exact rational. *)
Definition scale (base m e : Z) : Q :=
  if (0 <=? e)%Z then inject_Z (m * base ^ e)
  else Qred (Qmake m (Z.to_pos (base ^ (- e)))).

(** An optional exponent part, introduced by [marker] in either case: its
    value and the number of characters it takes. The marker without a
    digit after it is not part of the number. *)
Definition scan_exponent (marker : ascii) (s : list ascii) : Z * nat :=
  match s with
  | c :: s1 =>
      if Ascii.eqb (tolower c) marker then
        let '(neg, sg, s2) := scan_sign s1 in
        let '(ds, _) := span_while isdigit s2 in
        match ds with
        | [] => (0%Z, 0)
        | _ => ((if neg then - digits_value 10 ds else digits_value 10 ds)%Z,
                1 + sg + length ds)
        end
      else (0%Z, 0)
  | [] => (0%Z, 0)
  end.

(** Digits, optionally with a radix point among them, at least one digit
    in all: the integral digits, the fractional digits, the number of
    characters taken, and the rest. *)
Definition scan_mantissa (isd : ascii -> bool) (s : list ascii)
    : option (list ascii * list ascii * nat * list ascii) :=
  let '(ip, r1) := span_while isd s in
  let '(fp, dot, r2) :=
    match r1 with
    | c :: r =>
        if Ascii.eqb c "."%char
        then let '(fp, r') := span_while isd r in (fp, 1, r')
        else ([], 0, r1)
    | [] => ([], 0, r1)
    end in
  match ip ++ fp with
  | [] => None
  | _ => Some (ip, fp, length ip + dot + length fp, r2)
  end.

Definition scan_decimal (s : list ascii) : option (Q * nat) :=
  match scan_mantissa isdigit s with
  | Some (ip, fp, n, r) =>
      let '(e, en) := scan_exponent "e"%char r in
      Some (scale 10 (digits_value 10 (ip ++ fp)) (e - Z.of_nat (length fp)),
            n + en)
  | None => None
  end.

Definition scan_hex (s : list ascii) : option (Q * nat) :=
  match s with
  | z :: x :: r =>
      if Ascii.eqb z "0"%char && Ascii.eqb (tolower x) "x"%char then
        match scan_mantissa isxdigit r with
        | Some (ip, fp, n, r') =>
            let '(e, en) := scan_exponent "p"%char r' in
            Some (scale 2 (digits_value 16 (ip ++ fp))
                    (e - 4 * Z.of_nat (length fp)),
                  2 + n + en)
        | None => None
        end
      else None
  | _ => None
  end.

(** [pat] (in lower case) is a prefix of [s], case ignored. *)
Fixpoint ci_prefix (pat s : list ascii) : bool :=
  match pat, s with
  | [], _ => true
  | p :: pat', c :: s' => Ascii.eqb (tolower c) p && ci_prefix pat' s'
  | _ :: _, [] => false
  end.

(** The optional [(n-char-sequence)] after [nan]. *)
Definition scan_nan_payload (s : list ascii) : nat :=
  match s with
  | c :: r =>
      if Ascii.eqb c LPAREN then
        let '(body, r') := span_while isalnum_ r in
        match r' with
        | d :: _ => if Ascii.eqb d RPAREN then 2 + length body else 0
        | [] => 0
        end
      else 0
  | [] => 0
  end.

(** The quotient of [num] by [den], a positive number, rounded to the
    nearest integer, ties to even. *)
Definition round_half_even (num den : Z) : Z :=
  let q := (num / den)%Z in
  let r := (num mod den)%Z in
  match (2 * r ?= den)%Z with
  | Lt => q
  | Gt => (q + 1)%Z
  | Eq => if Z.even q then q else (q + 1)%Z
  end.

(** [2 ^ e <= a / b], for positive [a] and [b]. *)
Definition pow2_le (e a b : Z) : bool :=
  if (0 <=? e)%Z then (b * 2 ^ e <=? a)%Z else (b <=? a * 2 ^ (- e))%Z.

(** The binary32 number nearest to the non-negative rational [q], with
    the sign [neg]: [e] is the exponent of [q] ([2 ^ e <= q < 2 ^ (e + 1)]),
    the unit in the last place is [2 ^ k] with 24 significant bits, down to
    [2 ^ (-149)] for subnormal numbers; what rounds to [2 ^ 128] or more is
    an infinity. *)
Definition round_binary32 (neg : bool) (q : Q) : float :=
  let a := Qnum q in
  let b := Zpos (Qden q) in
  if (a <=? 0)%Z then Fnum neg 0%Q
  else
    let e0 := (Z.log2 a - Z.log2 b)%Z in
    let e := if pow2_le e0 a b then e0 else (e0 - 1)%Z in
    let k := (Z.max e (-126) - 23)%Z in
    let n := if (0 <=? k)%Z then round_half_even a (b * 2 ^ k)
             else round_half_even (a * 2 ^ (- k)) b in
    if (128 <=? e)%Z || ((e =? 127)%Z && (n =? 2 ^ 24)%Z) then Finf neg
    else Fnum neg (scale 2 n k).

(** [strtof(s, &end)]: white space, an optional sign, then an infinity, a
    NaN, a hexadecimal or a decimal floating-point number, rounded to
    binary32. *)
Definition strtof (s : list ascii) : float * nat :=
  let '(ws, s1) := span_while isspace s in
  let '(neg, sg, s2) := scan_sign s1 in
  let lead := length ws + sg in
  if ci_prefix (list_ascii_of_string "infinity") s2 then (Finf neg, lead + 8)
  else if ci_prefix (list_ascii_of_string "inf") s2 then (Finf neg, lead + 3)
  else if ci_prefix (list_ascii_of_string "nan") s2
  then (Fnan neg, lead + 3 + scan_nan_payload (drop 3 s2))
  else
    match scan_hex s2 with
    | Some (q, n) => (round_binary32 neg q, lead + n)
    | None =>
        match scan_decimal s2 with
        | Some (q, n) => (round_binary32 neg q, lead + n)
        | None => (float_zero, 0)
        end
    end.

(** ** [tokenize] *)

Definition pat_f32 : list ascii := list_ascii_of_string "f32".
Definition pat_i32 : list ascii := list_ascii_of_string "i32".

(** The closure [appendText], with the variables it captures by reference
    passed in and [outArray] returned. Offsets are natural numbers:
    [pEnd - 3] is only evaluated after [search] has found a three-character
    match inside [pStart, pEnd), hence with [3 <= pEnd]. *)
Definition appendText (pText : list ascii) (pStart pEnd : nat)
    (outArray : TokenArray) : outcome TokenArray :=
  if bool_decide (pStart <> pEnd) then
    match search pText pStart pEnd pat_f32 with
    | Some pC =>
        assert (pC =? pEnd - 3) "f32 should be at the end" ;;;
        let '(f, n) := strtof (c_string pText pStart) in
        let pEndPtr := pStart + n in
        assert (pEndPtr =? pEnd - 3) "error parsing f32" ;;;
        Ret (push_back outArray (Token.mk F32 pStart pEndPtr f 0))
    | None =>
        match search pText pStart pEnd pat_i32 with
        | Some pC =>
            assert (pC =? pEnd - 3) "i32 should be at the end" ;;;
            let '(l, n) := strtol (c_string pText pStart) in
            let pEndPtr := pStart + n in
            let i := to_int32 l in
            assert (pEndPtr =? pEnd - 3) "error parsing i32" ;;;
            Ret (push_back outArray (Token.mk I32 pStart pEndPtr float_zero i))
        | None =>
            Ret (push_back outArray (Token.mk NAME pStart pEnd float_zero 0))
        end
    end
  else Ret outArray.

Definition is_blank (c : ascii) : bool :=
  Ascii.eqb c SPACE || Ascii.eqb c LF || Ascii.eqb c CR || Ascii.eqb c TAB.

(** The [switch] of the loop body, on the character [c] at [pEnd]:
    the new [pStart], [inString] and [outArray]. *)
Definition tokenize_switch (pText : list ascii) (c : ascii)
    (pStart pEnd : nat) (inString : bool) (outArray : TokenArray)
    : outcome (nat * bool * TokenArray) :=
  if is_blank c then
    if inString then Ret (pStart, inString, outArray)
    else
      outArray <- appendText pText pStart pEnd outArray ;;
      Ret (pEnd + 1, inString, outArray)
  else if Ascii.eqb c LPAREN then
    if inString then Ret (pStart, inString, outArray)
    else
      outArray <- appendText pText pStart pEnd outArray ;;
      Ret (pEnd + 1, inString,
           push_back outArray (Token.mk LP pEnd (pEnd + 1) float_zero 0))
  else if Ascii.eqb c RPAREN then
    if inString then Ret (pStart, inString, outArray)
    else
      outArray <- appendText pText pStart pEnd outArray ;;
      Ret (pEnd + 1, inString,
           push_back outArray (Token.mk RP pEnd (pEnd + 1) float_zero 0))
  else if Ascii.eqb c DQUOTE then
    if inString then
      Ret (pEnd + 1, false,
           push_back outArray (Token.mk STRING pStart pEnd float_zero 0))
    else
      outArray <- appendText pText pStart pEnd outArray ;;
      Ret (pEnd + 1, true, outArray)
  else Ret (pStart, inString, outArray).

(** What follows the loop. *)
Definition tokenize_end (inString : bool) (outArray : TokenArray)
    : outcome TokenArray :=
  assert (negb inString) "unmatched quotes" ;;;
  Ret outArray.

(** The [while] loop: the switch, then [pEnd++], as long as the character
    at [pEnd] is not NUL. [rest] is the buffer from [pEnd] on, so that its
    head is the character at [pEnd]; an exhausted [rest] reads as the
    terminator. *)
Fixpoint tokenize_loop (pText rest : list ascii) (pStart pEnd : nat)
    (inString : bool) (outArray : TokenArray) {struct rest}
    : outcome TokenArray :=
  match rest with
  | [] => tokenize_end inString outArray
  | c :: rest' =>
      if Ascii.eqb c NUL then tokenize_end inString outArray
      else
        st <- tokenize_switch pText c pStart pEnd inString outArray ;;
        let '(pStart', inString', outArray') := st in
        tokenize_loop pText rest' pStart' (S pEnd) inString' outArray'
  end.

Definition tokenize (pText : list ascii) : outcome TokenArray :=
  tokenize_loop pText pText 0 0 false [].

Definition src (s : string) : list ascii := list_ascii_of_string s.

(** ** [ListNode] and [getLists] *)

Module ListNode.
#[warnings="-register-all"]
Inductive t : Type := mk {
  isList : option bool;
  token : option Token;
  child : list t
}.
End ListNode.
Abbreviation ListNode := ListNode.t.

(** A [ListNode *] reachable from the root: the positions to follow in the
    successive [child] arrays. *)
Abbreviation NodePtr := (list nat).

Fixpoint node_at (root : ListNode) (p : NodePtr) {struct p}
    : option ListNode :=
  match p with
  | [] => Some root
  | i :: p' =>
      match ListNode.child root !! i with
      | Some c => node_at c p'
      | None => None
      end
  end.

(** [p->child.emplace_back(newNode)], as the new value of the tree. *)
Fixpoint emplace_back (root : ListNode) (p : NodePtr) (newNode : ListNode)
    {struct p} : ListNode :=
  match p with
  | [] =>
      ListNode.mk (ListNode.isList root) (ListNode.token root)
        (ListNode.child root ++ [newNode])
  | i :: p' =>
      ListNode.mk (ListNode.isList root) (ListNode.token root)
        (alter (fun c => emplace_back c p' newNode) i (ListNode.child root))
  end.

(** [p->child.size()] *)
Definition child_size (root : ListNode) (p : NodePtr) : nat :=
  match node_at root p with
  | Some n => length (ListNode.child n)
  | None => 0
  end.

(** [new ListNode]: the members [isList] and [token] are left
    uninitialised, [child] is empty. *)
Definition new_ListNode : ListNode := ListNode.mk None None [].

(** [new ListNode{ false, token }] *)
Definition new_ListNode_atom (token : Token) : ListNode :=
  ListNode.mk (Some false) (Some token) [].

(** [nodeStack.back()] and [nodeStack.pop_back()] of a non-empty array. *)
Definition back (nodeStack : list NodePtr) : NodePtr :=
  default [] (last nodeStack).

Definition pop_back (nodeStack : list NodePtr) : list NodePtr :=
  removelast nodeStack.

(** The loop over [tokens], on the tree owned by [root]. *)
Fixpoint getLists_loop (tokens : TokenArray) (root : ListNode)
    (nodeStack : list NodePtr) (curNode : NodePtr) : outcome ListNode :=
  match tokens with
  | [] => Ret root
  | token :: tokens' =>
      match Token.type token with
      | LP =>
          let newNode := curNode ++ [child_size root curNode] in
          let root := emplace_back root curNode new_ListNode in
          let nodeStack := push_back nodeStack curNode in
          getLists_loop tokens' root nodeStack newNode
      | RP =>
          assert (negb (length nodeStack =? 0)) "unbalanced parentheses" ;;;
          let curNode := back nodeStack in
          let nodeStack := pop_back nodeStack in
          getLists_loop tokens' root nodeStack curNode
      | _ =>
          let root := emplace_back root curNode (new_ListNode_atom token) in
          getLists_loop tokens' root nodeStack curNode
      end
  end.

Definition getLists (tokens : TokenArray) : outcome ListNode :=
  let root := ListNode.mk (Some true) None [] in
  getLists_loop tokens root [] [].

(** [parse] up to the list tree: the whole file is read into a
    [std::string], whose [c_str()] is tokenized. *)
Definition parse_lists (source : list ascii) : outcome ListNode :=
  tokens <- tokenize source ;;
  getLists tokens.

(** ** Measures used in the statements *)

Definition is_paren (t : Token) : bool :=
  bool_decide (Token.type t = LP) || bool_decide (Token.type t = RP).

Definition count_type (ty : TokenType) (tokens : TokenArray) : nat :=
  length (filter (fun t => Token.type t = ty) tokens).


(** The nodes built by [new ListNode{ false, token }]. *)
Definition is_atom (n : ListNode) : bool :=
  match ListNode.isList n with
  | Some false => true
  | _ => false
  end.

Fixpoint count_atoms (n : ListNode) : nat :=
  match n with
  | ListNode.mk il _ ch =>
      (match il with Some false => 1 | _ => 0 end)
      + list_sum (map count_atoms ch)
  end.

Definition tk (ty : TokenType) (a b : nat) : Token :=
  Token.mk ty a b float_zero 0.

(** The tokens other than parentheses. *)
Definition count_non_paren (tokens : TokenArray) : nat :=
  length (filter (fun t => is_paren t = false) tokens).

(** [p] points at a node of the tree under [root]. *)
Definition valid (root : ListNode) (p : NodePtr) : Prop :=
  is_Some (node_at root p).

(** The span of a token is well formed for its kind. *)
Definition span_ok (t : Token) : Prop :=
  Token.pStart t <= Token.pEnd t
  /\ (Token.type t = NAME -> Token.pStart t < Token.pEnd t)
  /\ (Token.type t = LP \/ Token.type t = RP ->
      Token.pEnd t = Token.pStart t + 1).

(** Outside a string literal, a character of a text run: not the
    terminator, not a blank, a parenthesis or a quote. Inside a string
    literal, any character but the terminator and the quote. *)
Definition inert (inString : bool) (c : ascii) : bool :=
  negb (Ascii.eqb c NUL) && negb (Ascii.eqb c DQUOTE)
  && (inString
      || negb (is_blank c) && negb (Ascii.eqb c LPAREN)
         && negb (Ascii.eqb c RPAREN)).

(** ** Measures used in the further properties *)

(** The number of quote characters of a text. *)
Definition count_quotes (s : list ascii) : nat :=
  length (List.filter (fun c => Ascii.eqb c DQUOTE) s).

(** The spans of [tokens] follow one another without overlap, from [lo]
    on and up to [hi]. *)
Fixpoint spans_between (lo : nat) (tokens : TokenArray) (hi : nat) : Prop :=
  match tokens with
  | [] => lo <= hi
  | t :: ts =>
      lo <= Token.pStart t /\ Token.pStart t <= Token.pEnd t
      /\ spans_between (Token.pEnd t) ts hi
  end.


(** What the text of a token is, by kind: a parenthesis; the body of a
    literal between two quotes, free of quotes; a run of ordinary
    characters without numeric suffix; the part of such a run before its
    final [i32] or [f32], which the library function converts whole into
    the token's value. *)
Definition token_text_ok (pText : list ascii) (t : Token) : Prop :=
  match Token.type t with
  | LP => span_text pText t = [LPAREN]
  | RP => span_text pText t = [RPAREN]
  | STRING =>
      Forall (fun c => c <> DQUOTE /\ c <> NUL) (span_text pText t)
      /\ 1 <= Token.pStart t
      /\ pText !! (Token.pStart t - 1) = Some DQUOTE
      /\ pText !! Token.pEnd t = Some DQUOTE
  | NAME =>
      span_text pText t <> []
      /\ Forall (fun c => inert false c = true) (span_text pText t)
      /\ (forall a b, span_text pText t <> a ++ pat_f32 ++ b)
      /\ (forall a b, span_text pText t <> a ++ pat_i32 ++ b)
  | I32 =>
      Forall (fun c => inert false c = true) (span_text pText t)
      /\ take 3 (drop (Token.pEnd t) pText) = pat_i32
      /\ exists l,
           strtol (c_string pText (Token.pStart t))
           = (l, Token.pEnd t - Token.pStart t)
           /\ Token.i32 t = to_int32 l
  | F32 =>
      Forall (fun c => inert false c = true) (span_text pText t)
      /\ take 3 (drop (Token.pEnd t) pText) = pat_f32
      /\ strtof (c_string pText (Token.pStart t))
         = (Token.f32 t, Token.pEnd t - Token.pStart t)
  end.


(** A token moved [n] characters to the right. *)
Definition shift (n : nat) (t : Token) : Token :=
  Token.mk (Token.type t) (n + Token.pStart t) (n + Token.pEnd t)
    (Token.f32 t) (Token.i32 t).


(** The tree read back as a sequence: an opening mark, the children and a
    closing mark for a list; the token for an atom. A node counts as a
    list unless its [isList] is [false]. *)
Inductive Item : Type :=
| Open
| Close
| Leaf (t : Token).

Definition erase (t : Token) : Item :=
  match Token.type t with
  | LP => Open
  | RP => Close
  | _ => Leaf t
  end.

Fixpoint unparse (n : ListNode) : list Item :=
  match n with
  | ListNode.mk (Some false) (Some t) _ => [Leaf t]
  | ListNode.mk (Some false) None _ => []
  | ListNode.mk _ _ ch => Open :: concat (map unparse ch) ++ [Close]
  end.

(** The top-level forms: the children of the root, which has no
    parentheses of its own. *)
Definition forms (root : ListNode) : list Item :=
  concat (map unparse (ListNode.child root)).

(** The tokens of the leaves of a sequence, in order. *)
Definition leaves (items : list Item) : TokenArray :=
  omap (fun it => match it with Leaf t => Some t | _ => None end) items.

(** The pointers to the ancestors of the node at [p], from the root down:
    what the stack of [getLists] holds when [curNode] is [p]. *)
Definition ancestors (p : NodePtr) : list NodePtr :=
  map (fun k => take k p) (seq 0 (length p)).

(** The node at [p] and its ancestors are each the last child of their
    parent, and none of them is an atom. *)
Fixpoint spine (n : ListNode) (p : NodePtr) {struct p} : Prop :=
  match p with
  | [] => True
  | i :: p' =>
      S i = length (ListNode.child n)
      /\ match ListNode.child n !! i with
         | Some c => is_atom c = false /\ spine c p'
         | None => False
         end
  end.

(** The forms read so far when the lists down to [p] are still open. *)
Fixpoint open_forms (n : ListNode) (p : NodePtr) {struct p} : list Item :=
  match p with
  | [] => forms n
  | i :: p' =>
      concat (map unparse (take i (ListNode.child n)))
      ++ Open :: match ListNode.child n !! i with
                 | Some c => open_forms c p'
                 | None => []
                 end
  end.


(** The depth of a node: 0 for an atom, one more than the deepest child
    for a list. *)
Fixpoint depth (n : ListNode) : nat :=
  match n with
  | ListNode.mk (Some false) _ _ => 0
  | ListNode.mk _ _ ch => S (list_max (map depth ch))
  end.

(** The nesting depth of the forms under the root. *)
Definition nesting (root : ListNode) : nat :=
  list_max (map depth (ListNode.child root)).

(** The highest number of lists open at once while reading [tokens],
    [level] of them being open at the start. *)
Fixpoint peak_from (level : nat) (tokens : TokenArray) : nat :=
  match tokens with
  | [] => level
  | t :: ts =>
      match Token.type t with
      | LP => peak_from (S level) ts
      | RP => Nat.max level (peak_from (level - 1) ts)
      | _ => peak_from level ts
      end
  end.

Definition peak (tokens : TokenArray) : nat := peak_from 0 tokens.

(** The same on the marks of a tree read back. *)
Fixpoint item_peak (level : nat) (items : list Item) : nat :=
  match items with
  | [] => level
  | Open :: r => item_peak (S level) r
  | Close :: r => Nat.max level (item_peak (level - 1) r)
  | Leaf _ :: r => item_peak level r
  end.


(** ** The printers

    What the two [operator<<] write to the stream, as the characters
    written. [std::to_string] of a [float] is taken as a parameter.
    Reading a member that was never written is undefined: the node printer
    then yields [None]. *)

(** [std::to_string] of an [int32_t]. *)
Definition to_string_i32 (i : Z) : list ascii :=
  src (NilZero.string_of_int (Z.to_int i)).

Definition print_Token (to_string_f32 : float -> list ascii)
    (pText : list ascii) (token : Token) : list ascii :=
  match Token.type token with
  | LP => src "[LP]"
  | RP => src "[RP]"
  | NAME => src "[NAME " ++ span_text pText token ++ src "]"
  | STRING =>
      src "[STRING " ++ [DQUOTE] ++ span_text pText token
      ++ [DQUOTE] ++ src "]"
  | I32 => src "[I32 " ++ to_string_i32 (Token.i32 token) ++ src "]"
  | F32 => src "[F32 " ++ to_string_f32 (Token.f32 token) ++ src "]"
  end.

(** The children of a list, each followed by a space. *)
Fixpoint print_children (printed : list (option (list ascii)))
    : option (list ascii) :=
  match printed with
  | [] => Some []
  | o :: r =>
      match o, print_children r with
      | Some s, Some b => Some (s ++ src " " ++ b)
      | _, _ => None
      end
  end.

Fixpoint print_ListNode (to_string_f32 : float -> list ascii)
    (pText : list ascii) (node : ListNode) : option (list ascii) :=
  match node with
  | ListNode.mk None _ _ => None
  | ListNode.mk (Some true) _ ch =>
      match print_children
              (map (print_ListNode to_string_f32 pText) ch) with
      | Some body => Some (src "( " ++ body ++ src ")")
      | None => None
      end
  | ListNode.mk (Some false) None _ => None
  | ListNode.mk (Some false) (Some token) _ =>
      Some (src "*" ++ print_Token to_string_f32 pText token)
  end.


(** The characters that close a text run: a blank, a parenthesis, a
    quote. *)
Definition is_delim (c : ascii) : bool :=
  is_blank c || Ascii.eqb c LPAREN || Ascii.eqb c RPAREN
  || Ascii.eqb c DQUOTE.

(** * Properties *)

(** ** Evaluations at concrete inputs *)

(** C1. An opening parenthesis that is never closed goes unnoticed:
    [getLists] has no check after its loop, and on the single token of the
    input [(] it returns the root with one (empty, unmarked) child instead
    of failing. *)
Theorem getLists_unclosed_list_returns :
  tokenize (src "(") = Ret [tk LP 0 1]
  /\ getLists [tk LP 0 1]
     = Ret (ListNode.mk (Some true) None [ListNode.mk None None []])
  /\ ~ aborts (getLists [tk LP 0 1])
  /\ ~ aborts (parse_lists (src "(")).
Proof.
  split; [reflexivity|]. split; [reflexivity|].
  split; intros [msg H]; vm_compute in H; discriminate H.
Qed.

(** C2. [tokenize] never closes the text run that is pending when the
    terminator is reached: [42i32] and [3.5f32] yield no token at all,
    whereas the same runs followed by a blank yield the numeric tokens. *)
Theorem tokenize_drops_final_run :
  tokenize (src "42i32") = Ret []
  /\ tokenize (src "3.5f32") = Ret []
  /\ tokenize (src "42i32 ") = Ret [Token.mk I32 0 2 float_zero 42]
  /\ tokenize (src "3.5f32 ")
     = Ret [Token.mk F32 0 3 (Fnum false (7 # 2)) 0].
Proof. repeat split; vm_compute; reflexivity. Qed.

(** C4. The node created for a [LeftParen] is appended to the current
    list, empty, but its [isList] member is never written, unlike the
    root's: in the tree of [()] the inner list is not marked as a list. *)
Theorem getLists_nested_list_unmarked :
  exists root inner,
    tokenize (src "()") = Ret [tk LP 0 1; tk RP 1 2]
    /\ getLists [tk LP 0 1; tk RP 1 2] = Ret root
    /\ ListNode.isList root = Some true
    /\ ListNode.child root = [inner]
    /\ ListNode.child inner = []
    /\ ListNode.token inner = None
    /\ ListNode.isList inner = None.
Proof.
  eexists; eexists. repeat split; reflexivity.
Qed.

(** C5. A run made of the suffix alone passes both assertions, because
    the library function that converts nothing leaves its end pointer at
    the start of the run, which is where the suffix begins: [i32] yields
    an [I32] token of value 0 with an empty span, and [f32] likewise. *)
Theorem tokenize_bare_suffix_accepted :
  tokenize (src "i32 ") = Ret [Token.mk I32 0 0 float_zero 0]
  /\ tokenize (src "f32 ") = Ret [Token.mk F32 0 0 float_zero 0]
  /\ tokenize (src "abci32 ") = Abort "error parsing i32"
  /\ tokenize (src "abci32") = Ret [].
Proof. repeat split; vm_compute; reflexivity. Qed.

(** C3, as stated, fails: the run [xf32y] does not end with a suffix, and
    closing it aborts on the assertion that [f32] is at the end. *)
Lemma tokenize_inner_suffix_aborts :
  let run := src "xf32y" in
  run <> []
  /\ (forall p, run <> p ++ pat_f32)
  /\ (forall p, run <> p ++ pat_i32)
  /\ tokenize (run ++ [SPACE]) = Abort "f32 should be at the end".
Proof.
  cbv zeta. split; [discriminate|].
  split; [|split; [|vm_compute; reflexivity]].
  - intros p H. apply (f_equal (@rev ascii)) in H.
    rewrite rev_app_distr in H. vm_compute in H. discriminate H.
  - intros p H. apply (f_equal (@rev ascii)) in H.
    rewrite rev_app_distr in H. vm_compute in H. discriminate H.
Qed.

(** C8, as stated, fails: the empty string literal yields a [String]
    token whose span is empty. *)
Lemma tokenize_empty_string_span :
  tokenize [DQUOTE; DQUOTE] = Ret [tk STRING 1 1]
  /\ span_text [DQUOTE; DQUOTE] (tk STRING 1 1) = [].
Proof. split; vm_compute; reflexivity. Qed.

(** ** The outcome monad *)

Lemma bind_Ret_inv {A B : Type} (c : outcome A) (k : A -> outcome B) (b : B) :
  bind c k = Ret b -> exists a, c = Ret a /\ k a = Ret b.
Proof. destruct c as [a|msg]; simpl; [eauto | discriminate]. Qed.

Lemma assert_Ret_inv (cond : bool) (msg : string) (u : unit) :
  assert cond msg = Ret u -> cond = true.
Proof. destruct cond; [reflexivity | discriminate]. Qed.

Lemma aborts_Abort {A : Type} (msg : string) : aborts (@Abort A msg).
Proof. exists msg. reflexivity. Qed.

Lemma not_aborts_Ret {A : Type} (a : A) : ~ aborts (Ret a).
Proof. intros [msg H]. discriminate H. Qed.

(** ** The embedding and the pointers of the source *)

(** The loop as the source writes it: test the character at [pEnd], run
    the switch on it, advance [pEnd]. *)
Lemma tokenize_loop_deref (pText : list ascii) (pStart pEnd : nat)
    (inString : bool) (outArray : TokenArray) :
  tokenize_loop pText (drop pEnd pText) pStart pEnd inString outArray
  = if Ascii.eqb (deref pText pEnd) NUL then tokenize_end inString outArray
    else
      st <- tokenize_switch pText (deref pText pEnd)
              pStart pEnd inString outArray ;;
      let '(pStart', inString', outArray') := st in
      tokenize_loop pText (drop (S pEnd) pText)
        pStart' (S pEnd) inString' outArray'.
Proof.
  unfold deref. destruct (pText !! pEnd) as [c|] eqn:Hc.
  - rewrite (drop_S _ _ _ Hc). reflexivity.
  - rewrite drop_ge by (apply lookup_ge_None; exact Hc). reflexivity.
Qed.

(** A match found by [search] lies inside [pBegin, pEnd): where the source
    computes [pEnd - 3] after a successful search, the subtraction on
    offsets is exact. *)
Lemma search_inner_bound (buf : list ascii) (pIter pEnd : nat) :
  forall (pJter : list ascii) (offset : nat),
    pIter + offset <= pEnd ->
    search_inner buf pJter pIter offset pEnd = (true, []) ->
    pIter + offset + length pJter <= pEnd.
Proof.
  induction pJter as [|c pJter IH]; intros offset Hle H.
  - simpl. lia.
  - simpl in H. destruct (pIter + offset =? pEnd) eqn:E; [discriminate H|].
    apply Nat.eqb_neq in E.
    destruct (negb _); [discriminate H|].
    apply IH in H; [simpl; lia | lia].
Qed.

Lemma search_outer_bound (buf pPat : list ascii) (pEnd : nat) :
  forall (n pIter pC : nat),
    pIter + n <= pEnd ->
    search_outer buf pPat n pIter pEnd = Some pC ->
    pIter <= pC /\ pC + length pPat <= pEnd.
Proof.
  induction n as [|n IH]; intros pIter pC Hle H.
  - discriminate H.
  - simpl in H.
    destruct (search_inner buf pPat pIter 0 pEnd) as [matched pJter] eqn:Hin.
    assert (Hnext : search_outer buf pPat n (S pIter) pEnd = Some pC ->
                    pIter <= pC /\ pC + length pPat <= pEnd).
    { intros H'. apply IH in H'; lia. }
    destruct matched; simpl in H; [|exact (Hnext H)].
    case_bool_decide as Hj; [|exact (Hnext H)].
    injection H as <-. subst pJter.
    apply search_inner_bound in Hin; lia.
Qed.

Lemma search_bound (buf pPat : list ascii) (pBegin pEnd pC : nat) :
  pBegin <= pEnd ->
  search buf pBegin pEnd pPat = Some pC ->
  pBegin <= pC /\ pC + length pPat <= pEnd.
Proof.
  intros Hle H. unfold search in H.
  apply search_outer_bound in H; [exact H | lia].
Qed.

(** ** Counting tokens *)

Lemma count_type_nil (ty : TokenType) : count_type ty [] = 0.
Proof. reflexivity. Qed.

Lemma count_type_cons (ty : TokenType) (t : Token) (ts : TokenArray) :
  count_type ty (t :: ts)
  = (if decide (Token.type t = ty) then 1 else 0) + count_type ty ts.
Proof.
  unfold count_type. destruct (decide (Token.type t = ty)) as [e|n].
  - rewrite filter_cons_True by exact e. reflexivity.
  - rewrite filter_cons_False by exact n. reflexivity.
Qed.

(** ** The list builder rejects an unmatched closing parenthesis *)

Lemma length_pop_back (nodeStack : list NodePtr) :
  length (pop_back nodeStack) = length nodeStack - 1.
Proof.
  unfold pop_back. induction nodeStack as [|a [|b l] IH]; simpl in *; lia.
Qed.

Lemma getLists_loop_unmatched (tokens : TokenArray) :
  forall (root : ListNode) (nodeStack : list NodePtr) (curNode : NodePtr),
    (exists k, length nodeStack + count_type LP (take k tokens)
               < count_type RP (take k tokens)) ->
    getLists_loop tokens root nodeStack curNode
    = Abort "unbalanced parentheses".
Proof.
  induction tokens as [|t ts IH]; intros root nodeStack curNode [k Hk].
  - rewrite take_nil in Hk. rewrite !count_type_nil in Hk. lia.
  - destruct k as [|k].
    { rewrite take_0 in Hk. rewrite !count_type_nil in Hk. lia. }
    rewrite firstn_cons, !count_type_cons in Hk.
    simpl. destruct (Token.type t) eqn:Hty;
      repeat (destruct (decide _) as [?|?] in Hk; try discriminate; try congruence);
      try (apply IH; exists k; lia).
    + apply IH. exists k. unfold push_back. rewrite length_app. simpl. lia.
    + destruct nodeStack as [|p ps].
      * reflexivity.
      * cbn [length Nat.eqb negb assert bind].
        apply IH. exists k. rewrite length_pop_back. simpl in *. lia.
Qed.

(** C6. A token sequence with a [RightParen] at a point where no list is
    open (some prefix holds more [RightParen] than [LeftParen] tokens)
    makes [getLists] abort on its assertion; no tree is returned. *)
Theorem getLists_unmatched_close_aborts (tokens : TokenArray) :
  (exists k, count_type LP (take k tokens) < count_type RP (take k tokens)) ->
  getLists tokens = Abort "unbalanced parentheses"
  /\ forall tree, getLists tokens <> Ret tree.
Proof.
  intros [k Hk].
  assert (H : getLists tokens = Abort "unbalanced parentheses").
  { unfold getLists. apply getLists_loop_unmatched. exists k. simpl. exact Hk. }
  split; [exact H|]. intros tree. rewrite H. discriminate.
Qed.

Lemma getLists_unmatched_close_aborts_witness :
  tokenize (src ")") = Ret [tk RP 0 1]
  /\ getLists [tk RP 0 1] = Abort "unbalanced parentheses"
  /\ forall tree, getLists [tk RP 0 1] <> Ret tree.
Proof.
  split; [reflexivity|].
  apply (getLists_unmatched_close_aborts [tk RP 0 1]).
  exists 1. vm_compute. lia.
Defined.

(** ** The shape of the tree under [emplace_back] *)


Lemma count_atoms_eq (n : ListNode) :
  count_atoms n
  = (if is_atom n then 1 else 0)
    + list_sum (map count_atoms (ListNode.child n)).
Proof. destruct n as [[[|]|] tok ch]; reflexivity. Qed.

Lemma list_sum_map_alter {A : Type} (g : A -> nat) (f : A -> A) (d : nat) :
  forall (l : list A) (i : nat) (x : A),
    l !! i = Some x -> g (f x) = g x + d ->
    list_sum (map g (alter f i l)) = list_sum (map g l) + d.
Proof.
  induction l as [|a l IH]; intros i x Hl Hg.
  - discriminate Hl.
  - destruct i as [|i].
    + injection Hl as ->. simpl. lia.
    + change (alter f (S i) (a :: l)) with (a :: alter f i l).
      simpl map. simpl list_sum. rewrite (IH i x Hl Hg). lia.
Qed.

Lemma count_atoms_emplace_back (newNode : ListNode) :
  forall (p : NodePtr) (root : ListNode),
    valid root p ->
    count_atoms (emplace_back root p newNode)
    = count_atoms root + count_atoms newNode.
Proof.
  induction p as [|i p IH]; intros root Hv.
  - rewrite (count_atoms_eq root), (count_atoms_eq (emplace_back _ _ _)).
    unfold is_atom. simpl.
    rewrite List.map_app, list_sum_app. simpl. lia.
  - unfold valid in Hv. simpl in Hv.
    destruct (ListNode.child root !! i) as [c|] eqn:Hc;
      [|destruct Hv as [? Hv]; discriminate Hv].
    rewrite (count_atoms_eq root), (count_atoms_eq (emplace_back _ _ _)).
    unfold is_atom. simpl.
    rewrite (list_sum_map_alter count_atoms _ (count_atoms newNode) _ i c Hc).
    + lia.
    + apply IH. exact Hv.
Qed.

Lemma valid_emplace_back (newNode : ListNode) :
  forall (p q : NodePtr) (root : ListNode),
    valid root p -> valid (emplace_back root q newNode) p.
Proof.
  unfold valid. induction p as [|i p IH]; intros q root Hv.
  - simpl. eauto.
  - simpl in Hv.
    destruct (ListNode.child root !! i) as [c|] eqn:Hc;
      [|destruct Hv as [? Hv]; discriminate Hv].
    destruct q as [|j q]; simpl.
    + rewrite lookup_app_l by (eapply lookup_lt_Some; exact Hc).
      rewrite Hc. exact Hv.
    + destruct (decide (j = i)) as [->|Hne].
      * rewrite list_lookup_alter_eq, Hc. simpl. apply IH. exact Hv.
      * rewrite list_lookup_alter_ne by exact Hne. rewrite Hc. exact Hv.
Qed.

Lemma valid_new_child (newNode : ListNode) :
  forall (p : NodePtr) (root : ListNode),
    valid root p ->
    valid (emplace_back root p newNode) (p ++ [child_size root p]).
Proof.
  unfold valid. induction p as [|i p IH]; intros root Hv.
  - simpl. unfold child_size. simpl.
    rewrite lookup_app_r by reflexivity.
    rewrite Nat.sub_diag. simpl. eauto.
  - simpl in Hv. unfold child_size in *. simpl.
    destruct (ListNode.child root !! i) as [c|] eqn:Hc;
      [|destruct Hv as [? Hv]; discriminate Hv].
    rewrite list_lookup_alter_eq, Hc. simpl. apply IH. exact Hv.
Qed.

Lemma valid_back (root : ListNode) (nodeStack : list NodePtr) :
  Forall (valid root) nodeStack -> nodeStack <> [] ->
  valid root (back nodeStack) /\ Forall (valid root) (pop_back nodeStack).
Proof.
  unfold back, pop_back.
  induction nodeStack as [|a [|b l] IH]; intros HF Hne.
  - congruence.
  - simpl. split; [apply (Forall_inv HF) | constructor].
  - destruct IH as [IH1 IH2]; [apply (Forall_inv_tail HF) | discriminate |].
    split; [exact IH1|].
    change (removelast (a :: b :: l)) with (a :: removelast (b :: l)).
    constructor; [apply (Forall_inv HF) | exact IH2].
Qed.


Lemma count_non_paren_cons (t : Token) (ts : TokenArray) :
  count_non_paren (t :: ts)
  = (if is_paren t then 0 else 1) + count_non_paren ts.
Proof.
  unfold count_non_paren. destruct (is_paren t) eqn:E.
  - rewrite filter_cons_False by congruence. reflexivity.
  - rewrite filter_cons_True by exact E. reflexivity.
Qed.

(** ** The list builder on sequences without an unmatched closing
       parenthesis *)

Lemma getLists_loop_returns (tokens : TokenArray) :
  forall (root : ListNode) (nodeStack : list NodePtr) (curNode : NodePtr),
    valid root curNode ->
    Forall (valid root) nodeStack ->
    (forall k, count_type RP (take k tokens)
               <= length nodeStack + count_type LP (take k tokens)) ->
    exists tree,
      getLists_loop tokens root nodeStack curNode = Ret tree
      /\ count_atoms tree = count_atoms root + count_non_paren tokens.
Proof.
  induction tokens as [|t ts IH]; intros root nodeStack curNode Hcur Hst Hbal.
  - exists root. split; [reflexivity|]. unfold count_non_paren. simpl. lia.
  - assert (Hstep : forall k,
      (if decide (Token.type t = RP) then 1 else 0) + count_type RP (take k ts)
      <= length nodeStack
         + ((if decide (Token.type t = LP) then 1 else 0)
            + count_type LP (take k ts))).
    { intros k. specialize (Hbal (S k)).
      rewrite firstn_cons, !count_type_cons in Hbal. exact Hbal. }
    rewrite count_non_paren_cons. unfold is_paren.
    simpl. destruct (Token.type t) eqn:Hty; simpl;
      repeat (destruct (decide _) as [?|?] in Hstep;
              try discriminate; try congruence).
    1,2,5,6:
      (destruct (IH (emplace_back root curNode (new_ListNode_atom t))
                    nodeStack curNode) as (tree & Hr & Hc);
       [ apply valid_emplace_back; exact Hcur
       | eapply Forall_impl; [exact Hst|];
         intros p Hp; apply valid_emplace_back; exact Hp
       | intros k; specialize (Hstep k); lia
       | exists tree; split; [exact Hr|];
         rewrite Hc, count_atoms_emplace_back by exact Hcur;
         simpl; lia ]).
    + destruct (IH (emplace_back root curNode new_ListNode)
                   (push_back nodeStack curNode)
                   (curNode ++ [child_size root curNode]))
        as (tree & Hr & Hc).
      * apply valid_new_child. exact Hcur.
      * unfold push_back. apply Forall_app. split.
        -- eapply Forall_impl; [exact Hst|].
           intros p Hp. apply valid_emplace_back. exact Hp.
        -- constructor; [|constructor].
           apply valid_emplace_back. exact Hcur.
      * intros k. specialize (Hstep k).
        unfold push_back. rewrite length_app. simpl. lia.
      * exists tree. split; [exact Hr|].
        rewrite Hc, count_atoms_emplace_back by exact Hcur. simpl. lia.
    + assert (Hne : nodeStack <> []).
      { intros ->. specialize (Hstep 0). simpl in Hstep.
        rewrite !count_type_nil in Hstep. lia. }
      destruct (valid_back root nodeStack Hst Hne) as [Hb Hp].
      destruct nodeStack as [|a l]; [congruence|].
      cbn [length Nat.eqb negb assert bind].
      destruct (IH root (pop_back (a :: l)) (back (a :: l)))
        as (tree & Hr & Hc); [exact Hb | exact Hp | |].
      * intros k. specialize (Hstep k).
        rewrite length_pop_back. simpl in *. lia.
      * exists tree. split; [exact Hr|]. rewrite Hc. lia.
Qed.



(** ** What [appendText] appends *)

Lemma appendText_inv (pText : list ascii) (pStart pEnd : nat)
    (outArray outArray' : TokenArray) :
  appendText pText pStart pEnd outArray = Ret outArray' ->
  (pStart = pEnd /\ outArray' = outArray)
  \/ (pStart <> pEnd
      /\ exists t, outArray' = outArray ++ [t]
         /\ Token.pStart t = pStart
         /\ ((Token.type t = NAME /\ Token.pEnd t = pEnd
              /\ search pText pStart pEnd pat_f32 = None
              /\ search pText pStart pEnd pat_i32 = None)
             \/ (Token.type t = F32
                 /\ search pText pStart pEnd pat_f32 = Some (pEnd - 3)
                 /\ Token.pEnd t = pEnd - 3
                 /\ Token.pStart t <= Token.pEnd t)
             \/ (Token.type t = I32
                 /\ search pText pStart pEnd pat_f32 = None
                 /\ search pText pStart pEnd pat_i32 = Some (pEnd - 3)
                 /\ Token.pEnd t = pEnd - 3
                 /\ Token.pStart t <= Token.pEnd t))).
Proof.
  unfold appendText. case_bool_decide as Hne.
  2:{ intros [= <-]. left. split; [|reflexivity].
      destruct (decide (pStart = pEnd)); [assumption|contradiction]. }
  intros H. right. split; [exact Hne|].
  destruct (search pText pStart pEnd pat_f32) as [pC|] eqn:Hf.
  - destruct (pC =? pEnd - 3) eqn:E1; [|discriminate H].
    apply Nat.eqb_eq in E1. subst pC. simpl in H.
    destruct (strtof (c_string pText pStart)) as [f n] eqn:Hs.
    destruct (pStart + n =? pEnd - 3) eqn:E2; [|discriminate H].
    apply Nat.eqb_eq in E2. simpl in H. injection H as <-.
    eexists. split; [reflexivity|]. split; [reflexivity|].
    right. left. simpl. repeat split; try assumption. lia.
  - destruct (search pText pStart pEnd pat_i32) as [pC|] eqn:Hi.
    + destruct (pC =? pEnd - 3) eqn:E1; [|discriminate H].
      apply Nat.eqb_eq in E1. subst pC. simpl in H.
      destruct (strtol (c_string pText pStart)) as [l n] eqn:Hs.
      destruct (pStart + n =? pEnd - 3) eqn:E2; [|discriminate H].
      apply Nat.eqb_eq in E2. simpl in H. injection H as <-.
      eexists. split; [reflexivity|]. split; [reflexivity|].
      right. right. simpl. repeat split; try assumption. lia.
    + injection H as <-.
      eexists. split; [reflexivity|]. split; [reflexivity|].
      left. simpl. repeat split; reflexivity.
Qed.

(** ** Token spans *)


Lemma appendText_span_ok (pText : list ascii) (pStart pEnd : nat)
    (outArray outArray' : TokenArray) :
  pStart <= pEnd ->
  Forall span_ok outArray ->
  appendText pText pStart pEnd outArray = Ret outArray' ->
  Forall span_ok outArray'.
Proof.
  intros Hle HF H. apply appendText_inv in H.
  destruct H as [[_ ->]|[Hne (t & -> & Hs & Hcase)]]; [exact HF|].
  apply Forall_app. split; [exact HF|]. constructor; [|constructor].
  unfold span_ok.
  destruct Hcase as [(Hty & He & _)|[(Hty & _ & He & Hl)|(Hty & _ & _ & He & Hl)]];
    rewrite Hty.
  - rewrite Hs, He. split; [lia|]. split; [lia|].
    intros [?|?]; discriminate.
  - split; [exact Hl|]. split; [discriminate | intros [?|?]; discriminate].
  - split; [exact Hl|]. split; [discriminate | intros [?|?]; discriminate].
Qed.

Lemma span_ok_push (outArray : TokenArray) (t : Token) :
  Forall span_ok outArray -> span_ok t -> Forall span_ok (push_back outArray t).
Proof.
  intros HF Ht. unfold push_back. apply Forall_app. split; [exact HF|].
  constructor; [exact Ht | constructor].
Qed.

Ltac switch_cases H :=
  unfold tokenize_switch in H;
  repeat match type of H with
         | context [if ?b then _ else _] => destruct b eqn:?
         end;
  try (apply bind_Ret_inv in H; destruct H as (? & ? & H));
  injection H as <- <- <-.

Lemma tokenize_switch_span_ok (pText : list ascii) (c : ascii)
    (pStart pEnd : nat) (inString : bool) (outArray : TokenArray)
    (pStart' : nat) (inString' : bool) (outArray' : TokenArray) :
  pStart <= pEnd ->
  Forall span_ok outArray ->
  tokenize_switch pText c pStart pEnd inString outArray
  = Ret (pStart', inString', outArray') ->
  pStart' <= S pEnd /\ Forall span_ok outArray'.
Proof.
  intros Hle HF H. switch_cases H;
    (split; [lia|]);
    try exact HF;
    try (eapply appendText_span_ok; eassumption);
    apply span_ok_push;
    try exact HF;
    try (eapply appendText_span_ok; eassumption);
    unfold span_ok; simpl;
    (split; [lia|]);
    (split; [discriminate || (intros _; lia) | ]);
    try (intros [?|?]; discriminate); intros _; lia.
Qed.

Lemma tokenize_loop_span_ok (pText : list ascii) :
  forall (rest : list ascii) (pStart pEnd : nat) (inString : bool)
         (outArray tokens : TokenArray),
    pStart <= pEnd ->
    Forall span_ok outArray ->
    tokenize_loop pText rest pStart pEnd inString outArray = Ret tokens ->
    Forall span_ok tokens.
Proof.
  assert (Hend : forall inString outArray tokens,
             Forall span_ok outArray ->
             tokenize_end inString outArray = Ret tokens ->
             Forall span_ok tokens).
  { intros [|] outArray tokens HF H; [discriminate H|].
    injection H as <-. exact HF. }
  induction rest as [|c rest IH];
    intros pStart pEnd inString outArray tokens Hle HF H; simpl in H.
  - eapply Hend; eassumption.
  - destruct (Ascii.eqb c NUL); [eapply Hend; eassumption|].
    apply bind_Ret_inv in H. destruct H as ([[pStart' inString'] outArray'] & Hsw & H).
    apply tokenize_switch_span_ok in Hsw; [|exact Hle|exact HF].
    destruct Hsw as [Hle' HF'].
    eapply IH; [| exact HF' | exact H]. lia.
Qed.

(** C8, amended. In every token sequence [tokenize] returns, a [Name]
    token has a non-empty span, a [LeftParen] or [RightParen] token has a
    span of exactly one character, and no span ends before it starts. *)
Theorem tokenize_spans (pText : list ascii) (tokens : TokenArray) :
  tokenize pText = Ret tokens ->
  Forall (fun t =>
            Token.pStart t <= Token.pEnd t
            /\ (Token.type t = NAME -> Token.pStart t < Token.pEnd t)
            /\ (Token.type t = LP \/ Token.type t = RP ->
                Token.pEnd t = Token.pStart t + 1)) tokens.
Proof.
  intros H. unfold tokenize in H.
  apply (tokenize_loop_span_ok pText pText 0 0 false [] tokens);
    [lia | constructor | exact H].
Qed.

Lemma tokenize_spans_witness :
  Forall (fun t =>
            Token.pStart t <= Token.pEnd t
            /\ (Token.type t = NAME -> Token.pStart t < Token.pEnd t)
            /\ (Token.type t = LP \/ Token.type t = RP ->
                Token.pEnd t = Token.pStart t + 1))
    [tk LP 0 1; tk NAME 1 2; tk RP 2 3].
Proof.
  apply (tokenize_spans (src "(a)")). vm_compute. reflexivity.
Defined.

(** ** [search] and [appendText] only read what they are given

    [search] reads the buffer below [pEnd] only, and the library functions
    read the C string at [pStart]. *)

Section BufferPrefix.
Variables pre tail : list ascii.

Lemma deref_prefix (p : nat) :
  p < length pre -> deref (pre ++ tail) p = deref pre p.
Proof.
  intros Hp. unfold deref. rewrite lookup_app_l by exact Hp. reflexivity.
Qed.

Lemma search_inner_prefix (pIter pEnd : nat) :
  pEnd <= length pre ->
  forall (pJter : list ascii) (offset : nat),
    pIter + offset <= pEnd ->
    search_inner (pre ++ tail) pJter pIter offset pEnd
    = search_inner pre pJter pIter offset pEnd.
Proof.
  intros Hend. induction pJter as [|c pJter IH]; intros offset Hle.
  - reflexivity.
  - simpl. destruct (pIter + offset =? pEnd) eqn:E; [reflexivity|].
    apply Nat.eqb_neq in E.
    rewrite deref_prefix by lia.
    destruct (negb _); [reflexivity|]. apply IH. lia.
Qed.

Lemma search_outer_prefix (pPat : list ascii) (pEnd : nat) :
  pEnd <= length pre ->
  forall (n pIter : nat),
    pIter + n <= pEnd ->
    search_outer (pre ++ tail) pPat n pIter pEnd
    = search_outer pre pPat n pIter pEnd.
Proof.
  intros Hend. induction n as [|n IH]; intros pIter Hle.
  - reflexivity.
  - simpl. rewrite search_inner_prefix by lia.
    destruct (search_inner pre pPat pIter 0 pEnd) as [matched pJter].
    destruct (matched && _); [reflexivity|]. apply IH. lia.
Qed.

Lemma search_prefix (pBegin pEnd : nat) (pPat : list ascii) :
  pBegin <= pEnd -> pEnd <= length pre ->
  search (pre ++ tail) pBegin pEnd pPat = search pre pBegin pEnd pPat.
Proof.
  intros H1 H2. unfold search. apply search_outer_prefix; lia.
Qed.
End BufferPrefix.

(** ** Nothing is read at or after the first NUL *)

Section NulTerminated.
Variables pre post : list ascii.
Hypothesis pre_no_nul : Forall (fun c => c <> NUL) pre.

Lemma until_nul_stop (l : list ascii) :
  Forall (fun c => c <> NUL) l ->
  until_nul (l ++ NUL :: post) = l /\ until_nul l = l.
Proof.
  induction 1 as [|c l Hc _ [IH1 IH2]]; [split; reflexivity|].
  simpl. apply Ascii.eqb_neq in Hc. rewrite Hc, IH1, IH2.
  split; reflexivity.
Qed.

Lemma c_string_prefix (p : nat) :
  p <= length pre ->
  c_string (pre ++ NUL :: post) p = c_string pre p.
Proof.
  intros Hp. unfold c_string.
  rewrite drop_app_le by exact Hp.
  destruct (until_nul_stop (drop p pre)) as [E1 E2].
  { apply Forall_drop. exact pre_no_nul. }
  rewrite E1, E2. reflexivity.
Qed.

Lemma appendText_prefix (pStart pEnd : nat) (outArray : TokenArray) :
  pStart <= pEnd -> pEnd <= length pre ->
  appendText (pre ++ NUL :: post) pStart pEnd outArray
  = appendText pre pStart pEnd outArray.
Proof.
  intros H1 H2. unfold appendText.
  rewrite !search_prefix by assumption.
  rewrite c_string_prefix by lia. reflexivity.
Qed.

Lemma tokenize_switch_prefix (c : ascii) (pStart pEnd : nat)
    (inString : bool) (outArray : TokenArray) :
  pStart <= pEnd -> pEnd <= length pre ->
  tokenize_switch (pre ++ NUL :: post) c pStart pEnd inString outArray
  = tokenize_switch pre c pStart pEnd inString outArray.
Proof.
  intros H1 H2. unfold tokenize_switch.
  rewrite appendText_prefix by assumption. reflexivity.
Qed.

Lemma tokenize_switch_pStart (pText : list ascii) (c : ascii)
    (pStart pEnd : nat) (inString : bool) (outArray : TokenArray)
    (pStart' : nat) (inString' : bool) (outArray' : TokenArray) :
  pStart <= pEnd ->
  tokenize_switch pText c pStart pEnd inString outArray
  = Ret (pStart', inString', outArray') ->
  pStart' <= S pEnd.
Proof.
  intros Hle H. switch_cases H; lia.
Qed.

Lemma tokenize_loop_prefix :
  forall (rest : list ascii) (pStart pEnd : nat) (inString : bool)
         (outArray : TokenArray),
    Forall (fun c => c <> NUL) rest ->
    pStart <= pEnd -> pEnd + length rest <= length pre ->
    tokenize_loop (pre ++ NUL :: post) (rest ++ NUL :: post)
      pStart pEnd inString outArray
    = tokenize_loop pre rest pStart pEnd inString outArray.
Proof.
  induction rest as [|c rest IH];
    intros pStart pEnd inString outArray Hnn Hle Hlen.
  - reflexivity.
  - simpl in *. pose proof (Forall_inv Hnn) as Hc.
    apply Ascii.eqb_neq in Hc. rewrite Hc.
    rewrite tokenize_switch_prefix by lia.
    destruct (tokenize_switch pre c pStart pEnd inString outArray)
      as [[[pStart' inString'] outArray']|msg] eqn:Hsw; [|reflexivity].
    simpl. apply IH.
    + apply (Forall_inv_tail Hnn).
    + eapply tokenize_switch_pStart; eassumption.
    + lia.
Qed.
End NulTerminated.

(** C10. [tokenize] reads its argument as a NUL-terminated string: on a
    buffer with a NUL byte it returns what it returns on the prefix before
    the first NUL, tokens and failures alike, whatever follows the NUL. *)
Theorem tokenize_stops_at_nul (pre post : list ascii) :
  Forall (fun c => c <> NUL) pre ->
  tokenize (pre ++ NUL :: post) = tokenize pre.
Proof.
  intros Hpre. unfold tokenize.
  apply tokenize_loop_prefix; [exact Hpre | exact Hpre | lia | simpl; lia].
Qed.

Lemma tokenize_stops_at_nul_witness :
  tokenize (src "(a 1i32 " ++ NUL :: src "b) xf32y ") = tokenize (src "(a 1i32 ")
  /\ tokenize (src "(a 1i32 ")
     = Ret [tk LP 0 1; tk NAME 1 2; Token.mk I32 3 4 float_zero 1].
Proof.
  split; [|vm_compute; reflexivity].
  apply (tokenize_stops_at_nul (src "(a 1i32 ") (src "b) xf32y ")).
  repeat constructor; discriminate.
Defined.

(** ** Characters that leave the scanner's state alone *)


Lemma tokenize_switch_inert (pText : list ascii) (c : ascii)
    (pStart pEnd : nat) (inString : bool) (outArray : TokenArray) :
  inert inString c = true ->
  tokenize_switch pText c pStart pEnd inString outArray
  = Ret (pStart, inString, outArray).
Proof.
  unfold inert, tokenize_switch. intros H.
  destruct (Ascii.eqb c NUL), (Ascii.eqb c DQUOTE), inString,
    (is_blank c), (Ascii.eqb c LPAREN), (Ascii.eqb c RPAREN);
    simpl in H; try discriminate H; reflexivity.
Qed.

Lemma tokenize_loop_inert (pText : list ascii) (inString : bool)
    (rest : list ascii) :
  forall (run : list ascii) (pStart pEnd : nat) (outArray : TokenArray),
    Forall (fun c => inert inString c = true) run ->
    tokenize_loop pText (run ++ rest) pStart pEnd inString outArray
    = tokenize_loop pText rest pStart (pEnd + length run) inString outArray.
Proof.
  induction run as [|c run IH]; intros pStart pEnd outArray Hrun.
  - simpl. rewrite Nat.add_0_r. reflexivity.
  - pose proof (Forall_inv Hrun) as Hc.
    simpl. rewrite (tokenize_switch_inert _ _ _ _ _ _ Hc).
    assert (Hn : Ascii.eqb c NUL = false).
    { unfold inert in Hc. destruct (Ascii.eqb c NUL); [discriminate Hc|reflexivity]. }
    rewrite Hn. simpl. rewrite IH by apply (Forall_inv_tail Hrun).
    f_equal. lia.
Qed.

(** The run pending at the terminator is dropped, whatever it is. *)
Lemma tokenize_final_run_dropped (run : list ascii) :
  Forall (fun c => inert false c = true) run ->
  tokenize run = Ret [].
Proof.
  intros Hrun. unfold tokenize.
  rewrite <- (app_nil_r run) at 2.
  rewrite tokenize_loop_inert by exact Hrun. reflexivity.
Qed.

(** ** What [search] finds *)

Lemma search_inner_found (buf : list ascii) (pIter pEnd : nat) :
  pEnd <= length buf ->
  forall (pJter : list ascii) (offset : nat),
    pIter + offset <= pEnd ->
    search_inner buf pJter pIter offset pEnd = (true, []) ->
    take (length pJter) (drop (pIter + offset) buf) = pJter
    /\ pIter + offset + length pJter <= pEnd.
Proof.
  intros Hend. induction pJter as [|c pJter IH]; intros offset Hle H.
  - simpl. split; [reflexivity|lia].
  - simpl in H. destruct (pIter + offset =? pEnd) eqn:E; [discriminate H|].
    apply Nat.eqb_neq in E.
    destruct (Ascii.eqb c (deref buf (pIter + offset))) eqn:Ec;
      [|discriminate H].
    simpl in H. apply Ascii.eqb_eq in Ec.
    destruct (IH (S offset)) as [IH1 IH2]; [lia | exact H |].
    destruct (lookup_lt_is_Some_2 buf (pIter + offset)) as [x Hx]; [lia|].
    unfold deref in Ec. rewrite Hx in Ec. simpl in Ec. subst x.
    rewrite (drop_S _ _ _ Hx). simpl.
    replace (S (pIter + offset)) with (pIter + S offset) by lia.
    rewrite IH1. split; [reflexivity|lia].
Qed.

Lemma search_outer_found (buf pPat : list ascii) (pEnd : nat) :
  pEnd <= length buf ->
  forall (n pIter pC : nat),
    pIter + n <= pEnd ->
    search_outer buf pPat n pIter pEnd = Some pC ->
    take (length pPat) (drop pC buf) = pPat
    /\ pC + length pPat <= pEnd.
Proof.
  intros Hend. induction n as [|n IH]; intros pIter pC Hle H.
  - discriminate H.
  - simpl in H.
    destruct (search_inner buf pPat pIter 0 pEnd) as [matched pJter] eqn:Hin.
    destruct matched; simpl in H.
    + case_bool_decide as Hj.
      * injection H as <-. subst pJter.
        apply search_inner_found in Hin; [|exact Hend|lia].
        rewrite Nat.add_0_r in Hin. exact Hin.
      * apply (IH (S pIter)); [lia|exact H].
    + apply (IH (S pIter)); [lia|exact H].
Qed.

Lemma search_found (run pPat : list ascii) (pC : nat) :
  search run 0 (length run) pPat = Some pC ->
  exists a b, run = a ++ pPat ++ b.
Proof.
  unfold search. intros H.
  apply search_outer_found in H; [|lia|lia].
  destruct H as [H _].
  exists (take pC run), (drop (length pPat) (drop pC run)).
  rewrite <- H at 1. rewrite take_drop, take_drop. reflexivity.
Qed.

Lemma search_absent (run tail pPat : list ascii) :
  (forall a b, run <> a ++ pPat ++ b) ->
  search (run ++ tail) 0 (length run) pPat = None.
Proof.
  intros Hno. rewrite search_prefix by lia.
  destruct (search run 0 (length run) pPat) as [pC|] eqn:H; [|reflexivity].
  apply search_found in H. destruct H as (a & b & H).
  exfalso. exact (Hno a b H).
Qed.

Lemma is_blank_not_nul (d : ascii) :
  is_blank d = true -> Ascii.eqb d NUL = false.
Proof.
  unfold is_blank. intros H.
  destruct (Ascii.eqb d SPACE) eqn:E1;
    [apply Ascii.eqb_eq in E1; subst d; reflexivity|].
  destruct (Ascii.eqb d LF) eqn:E2;
    [apply Ascii.eqb_eq in E2; subst d; reflexivity|].
  destruct (Ascii.eqb d CR) eqn:E3;
    [apply Ascii.eqb_eq in E3; subst d; reflexivity|].
  destruct (Ascii.eqb d TAB) eqn:E4;
    [apply Ascii.eqb_eq in E4; subst d; reflexivity|].
  discriminate H.
Qed.

(** ** String literals *)

Lemma string_char_inert (c : ascii) :
  c <> DQUOTE /\ c <> NUL -> inert true c = true.
Proof.
  intros [H1 H2]. unfold inert.
  apply Ascii.eqb_neq in H1. apply Ascii.eqb_neq in H2.
  rewrite H1, H2. reflexivity.
Qed.

(** C9. On the input with the list holding the literal [a ( b], the
    [String] token spans the body without the two quotes, and the tree is
    a root with one child that has one child, the atom of that token. But
    the node holding the atom is the one created for the [LeftParen], and
    its [isList] member is never written: below the root no node is marked
    as a list, and the dump of the tree, which reads that member, is
    undefined. *)
Theorem string_literal_list_unmarked :
  let source := [LPAREN; DQUOTE] ++ src "a ( b" ++ [DQUOTE; RPAREN] in
  exists root l a,
    tokenize source = Ret [tk LP 0 1; tk STRING 2 7; tk RP 8 9]
    /\ span_text source (tk STRING 2 7) = src "a ( b"
    /\ parse_lists source = Ret root
    /\ ListNode.isList root = Some true
    /\ ListNode.child root = [l]
    /\ ListNode.child l = [a]
    /\ a = new_ListNode_atom (tk STRING 2 7)
    /\ l = emplace_back new_ListNode [] a
    /\ ListNode.isList l = None
    /\ (forall to_string_f32,
          print_ListNode to_string_f32 source l = None
          /\ print_ListNode to_string_f32 source root = None).
Proof.
  cbv zeta. do 3 eexists. vm_compute. repeat split; reflexivity.
Qed.

(** X15. From a quote met outside a string literal on, every character up
    to the next quote, blanks and parentheses included, belongs to the
    body: the pending run is closed, then one [String] token is appended
    whose span is the body without the two quotes, and scanning resumes
    after the closing quote, outside a string. *)
Theorem string_literal_body (pText body rest : list ascii)
    (pStart pEnd : nat) (outArray : TokenArray) :
  Forall (fun c => c <> DQUOTE /\ c <> NUL) body ->
  drop pEnd pText = DQUOTE :: body ++ DQUOTE :: rest ->
  let t := tk STRING (pEnd + 1) (pEnd + 1 + length body) in
  span_text pText t = body
  /\ tokenize_loop pText (drop pEnd pText) pStart pEnd false outArray
     = (outArray' <- appendText pText pStart pEnd outArray ;;
        tokenize_loop pText rest
          (pEnd + 1 + length body + 1) (pEnd + 1 + length body + 1)
          false (push_back outArray' t)).
Proof.
  intros Hbody Hdrop t. split.
  - unfold span_text, t, tk. cbn [Token.pStart Token.pEnd].
    replace (pEnd + 1 + length body - (pEnd + 1)) with (length body) by lia.
    replace (drop (pEnd + 1) pText) with (drop 1 (drop pEnd pText))
      by (rewrite drop_drop; reflexivity).
    rewrite Hdrop. simpl. rewrite drop_0, take_app_length. reflexivity.
  - rewrite Hdrop. simpl.
    unfold tokenize_switch at 1. simpl.
    destruct (appendText pText pStart pEnd outArray) as [outArray'|msg];
      [|reflexivity].
    simpl.
    rewrite tokenize_loop_inert
      by (eapply Forall_impl; [exact Hbody|]; apply string_char_inert).
    simpl. unfold t, tk, push_back.
    f_equal; try lia. do 2 f_equal. f_equal; lia.
Qed.

Lemma string_literal_body_witness :
  let source := [LPAREN; DQUOTE] ++ src "a ( b" ++ [DQUOTE; RPAREN] in
  span_text source (tk STRING 2 7) = src "a ( b"
  /\ tokenize_loop source (drop 1 source) 1 1 false [tk LP 0 1]
     = tokenize_loop source [RPAREN] 8 8 false [tk LP 0 1; tk STRING 2 7].
Proof.
  exact (string_literal_body
           ([LPAREN; DQUOTE] ++ src "a ( b" ++ [DQUOTE; RPAREN])
           (src "a ( b") [RPAREN] 1 1 [tk LP 0 1]
           ltac:(repeat constructor; discriminate)
           ltac:(reflexivity)).
Defined.

(** * Further properties *)

(** ** [search] returns the first occurrence *)

Lemma search_inner_complete (buf : list ascii) (pIter pEnd : nat) :
  pEnd <= length buf ->
  forall (pJter : list ascii) (offset : nat),
    pIter + offset + length pJter <= pEnd ->
    take (length pJter) (drop (pIter + offset) buf) = pJter ->
    search_inner buf pJter pIter offset pEnd = (true, []).
Proof.
  intros Hend. induction pJter as [|c pJter IH]; intros offset Hle Hocc.
  - reflexivity.
  - simpl in Hle, Hocc |- *.
    destruct (pIter + offset =? pEnd) eqn:E;
      [apply Nat.eqb_eq in E; lia|].
    destruct (lookup_lt_is_Some_2 buf (pIter + offset)) as [x Hx]; [lia|].
    rewrite (drop_S _ _ _ Hx) in Hocc. simpl in Hocc.
    injection Hocc as -> Hocc.
    unfold deref. rewrite Hx. simpl. rewrite Ascii.eqb_refl. simpl.
    apply IH; [lia|].
    replace (pIter + S offset) with (S (pIter + offset)) by lia.
    exact Hocc.
Qed.

Lemma search_inner_no_match (buf : list ascii) (pIter pEnd : nat) (pPat : list ascii) :
  pIter <= pEnd -> pEnd <= length buf ->
  (let '(matched, pJter) := search_inner buf pPat pIter 0 pEnd in
   matched && bool_decide (pJter = [])) = false ->
  ~ (pIter + length pPat <= pEnd
     /\ take (length pPat) (drop pIter buf) = pPat).
Proof.
  intros Hle Hend H [Hb Hocc].
  rewrite (search_inner_complete buf pIter pEnd Hend pPat 0) in H.
  - simpl in H. discriminate H.
  - lia.
  - rewrite Nat.add_0_r. exact Hocc.
Qed.

Lemma search_outer_first (buf pPat : list ascii) (pEnd : nat) :
  pEnd <= length buf ->
  forall (n pIter : nat),
    pIter + n = pEnd ->
    match search_outer buf pPat n pIter pEnd with
    | Some pC =>
        pIter <= pC /\ pC < pEnd /\ pC + length pPat <= pEnd
        /\ take (length pPat) (drop pC buf) = pPat
        /\ forall j, pIter <= j < pC ->
             ~ (j + length pPat <= pEnd
                /\ take (length pPat) (drop j buf) = pPat)
    | None =>
        forall j, pIter <= j < pEnd ->
          ~ (j + length pPat <= pEnd
             /\ take (length pPat) (drop j buf) = pPat)
    end.
Proof.
  intros Hend. induction n as [|n IH]; intros pIter Hn.
  - simpl. intros j Hj. lia.
  - simpl.
    destruct (search_inner buf pPat pIter 0 pEnd) as [matched pJter] eqn:Hin.
    destruct (matched && bool_decide (pJter = [])) eqn:Hm.
    + apply andb_true_iff in Hm. destruct Hm as [-> Hj].
      apply bool_decide_eq_true in Hj. subst pJter.
      apply search_inner_found in Hin; [|exact Hend|lia].
      rewrite Nat.add_0_r in Hin. destruct Hin as [Hocc Hb].
      repeat split; try lia; try exact Hocc.
    + assert (Hno : ~ (pIter + length pPat <= pEnd
                       /\ take (length pPat) (drop pIter buf) = pPat)).
      { apply search_inner_no_match; [lia | exact Hend |].
        rewrite Hin. exact Hm. }
      specialize (IH (S pIter) ltac:(lia)).
      destruct (search_outer buf pPat n (S pIter) pEnd) as [pC|].
      * destruct IH as (H1 & H2 & H3 & H4 & H5).
        repeat split; try lia; try exact H4.
        intros j Hj. destruct (decide (j = pIter)) as [->|Hne];
          [exact Hno | apply H5; lia].
      * intros j Hj. destruct (decide (j = pIter)) as [->|Hne];
          [exact Hno | apply IH; lia].
Qed.

Lemma search_spec (buf pPat : list ascii) (pBegin pEnd : nat) :
  pBegin <= pEnd -> pEnd <= length buf ->
  match search buf pBegin pEnd pPat with
  | Some pC =>
      pBegin <= pC /\ pC < pEnd /\ pC + length pPat <= pEnd
      /\ take (length pPat) (drop pC buf) = pPat
      /\ forall j, pBegin <= j < pC ->
           ~ (j + length pPat <= pEnd
              /\ take (length pPat) (drop j buf) = pPat)
  | None =>
      forall j, pBegin <= j < pEnd ->
        ~ (j + length pPat <= pEnd
           /\ take (length pPat) (drop j buf) = pPat)
  end.
Proof.
  intros Hle Hend. unfold search.
  apply search_outer_first; [exact Hend | lia].
Qed.

(** X1. On a range inside the buffer, [search] returns the first position
    of the range at which the whole pattern occurs without running past
    [pEnd], and the null pointer exactly when there is none; an empty
    range never matches. *)
Theorem search_first_occurrence (buf pPat : list ascii) (pBegin pEnd : nat) :
  pBegin <= pEnd -> pEnd <= length buf ->
  match search buf pBegin pEnd pPat with
  | Some pC =>
      pBegin <= pC /\ pC < pEnd /\ pC + length pPat <= pEnd
      /\ take (length pPat) (drop pC buf) = pPat
      /\ forall j, pBegin <= j < pC ->
           ~ (j + length pPat <= pEnd
              /\ take (length pPat) (drop j buf) = pPat)
  | None =>
      forall j, pBegin <= j < pEnd ->
        ~ (j + length pPat <= pEnd
           /\ take (length pPat) (drop j buf) = pPat)
  end.
Proof.
  intros Hle Hend. unfold search.
  assert (Htrip : pBegin + (pEnd - pBegin) = pEnd) by lia.
  exact (search_outer_first buf pPat pEnd Hend (pEnd - pBegin) pBegin Htrip).
Qed.

Lemma search_first_occurrence_witness :
  match search (src "i3 i32 i32") 0 10 pat_i32 with
  | Some pC =>
      0 <= pC /\ pC < 10 /\ pC + length pat_i32 <= 10
      /\ take (length pat_i32) (drop pC (src "i3 i32 i32")) = pat_i32
      /\ forall j, 0 <= j < pC ->
           ~ (j + length pat_i32 <= 10
              /\ take (length pat_i32) (drop j (src "i3 i32 i32")) = pat_i32)
  | None =>
      forall j, 0 <= j < 10 ->
        ~ (j + length pat_i32 <= 10
           /\ take (length pat_i32) (drop j (src "i3 i32 i32")) = pat_i32)
  end.
Proof.
  apply (search_first_occurrence (src "i3 i32 i32") pat_i32 0 10);
    simpl; lia.
Defined.

(** ** A loop rule for [tokenize] *)

Lemma drop_cons_inv {A : Type} (l : list A) (n : nat) (x : A) (r : list A) :
  drop n l = x :: r -> l !! n = Some x /\ r = drop (S n) l.
Proof.
  intros H. assert (Hx : l !! n = Some x).
  { rewrite <- (Nat.add_0_r n), <- lookup_drop, H. reflexivity. }
  split; [exact Hx|]. rewrite (drop_S _ _ _ Hx) in H. congruence.
Qed.

(** A property of the scanner's variables that every pass through the
    switch preserves holds when the loop is left, which happens at the
    first NUL with [inString] false. *)
Lemma tokenize_loop_invariant (pText : list ascii)
    (Inv : nat -> nat -> bool -> TokenArray -> Prop) :
  (forall c pStart pEnd inString outArray pStart' inString' outArray',
      Inv pStart pEnd inString outArray ->
      pText !! pEnd = Some c -> c <> NUL ->
      tokenize_switch pText c pStart pEnd inString outArray
      = Ret (pStart', inString', outArray') ->
      Inv pStart' (S pEnd) inString' outArray') ->
  forall (rest : list ascii) (pStart pEnd : nat) (inString : bool)
         (outArray tokens : TokenArray),
    rest = drop pEnd pText ->
    Inv pStart pEnd inString outArray ->
    tokenize_loop pText rest pStart pEnd inString outArray = Ret tokens ->
    exists pStart' pEnd',
      Inv pStart' pEnd' false tokens
      /\ pEnd <= pEnd' /\ deref pText pEnd' = NUL
      /\ forall i, pEnd <= i < pEnd' -> deref pText i <> NUL.
Proof.
  intros Hstep.
  assert (Hend : forall pStart pEnd inString outArray tokens,
             deref pText pEnd = NUL ->
             Inv pStart pEnd inString outArray ->
             tokenize_end inString outArray = Ret tokens ->
             exists pStart' pEnd',
               Inv pStart' pEnd' false tokens
               /\ pEnd <= pEnd' /\ deref pText pEnd' = NUL
               /\ forall i, pEnd <= i < pEnd' -> deref pText i <> NUL).
  { intros pStart pEnd [|] outArray tokens Hd HI H; [discriminate H|].
    injection H as <-. exists pStart, pEnd.
    repeat split; [exact HI | lia | exact Hd | intros i Hi; lia]. }
  induction rest as [|c rest IH];
    intros pStart pEnd inString outArray tokens Hrest HI H; simpl in H.
  - apply (Hend pStart pEnd inString outArray tokens); [|exact HI|exact H].
    unfold deref. rewrite lookup_ge_None_2; [reflexivity|].
    apply (f_equal length) in Hrest. rewrite length_drop in Hrest.
    simpl in Hrest. lia.
  - symmetry in Hrest. apply drop_cons_inv in Hrest.
    destruct Hrest as [Hc Hrest].
    destruct (Ascii.eqb c NUL) eqn:Ec.
    + apply Ascii.eqb_eq in Ec. subst c.
      apply (Hend pStart pEnd inString outArray tokens); [|exact HI|exact H].
      unfold deref. rewrite Hc. reflexivity.
    + apply Ascii.eqb_neq in Ec.
      apply bind_Ret_inv in H.
      destruct H as ([[pStart' inString'] outArray'] & Hsw & H).
      apply (IH _ _ _ _ _ Hrest (Hstep _ _ _ _ _ _ _ _ HI Hc Ec Hsw)) in H.
      destruct H as (ps & pe & H1 & H2 & H3 & H4).
      exists ps, pe. repeat split; [exact H1 | lia | exact H3 |].
      intros i Hi. destruct (decide (i = pEnd)) as [->|Hne].
      * unfold deref. rewrite Hc. exact Ec.
      * apply H4. lia.
Qed.

Lemma first_nul_until_nul (buf : list ascii) :
  forall (n : nat),
    deref buf n = NUL ->
    (forall i, i < n -> deref buf i <> NUL) ->
    take n buf = until_nul buf /\ n = length (until_nul buf).
Proof.
  induction buf as [|c buf IH]; intros n Hn Hlt.
  - destruct n as [|n]; [split; reflexivity|].
    exfalso. apply (Hlt 0); [lia | reflexivity].
  - destruct n as [|n].
    + unfold deref in Hn. simpl in Hn. subst c. split; reflexivity.
    + assert (Hc : c <> NUL) by (apply (Hlt 0); lia).
      apply Ascii.eqb_neq in Hc. simpl. rewrite Hc.
      destruct (IH n) as [E1 E2].
      * exact Hn.
      * intros i Hi. apply (Hlt (S i)). lia.
      * simpl. rewrite E1, <- E2. split; reflexivity.
Qed.

(** The rule for [tokenize] itself: the invariant holds of the returned
    tokens, with [pEnd] at the end of the text. *)
Lemma tokenize_invariant (pText : list ascii)
    (Inv : nat -> nat -> bool -> TokenArray -> Prop) (tokens : TokenArray) :
  (forall c pStart pEnd inString outArray pStart' inString' outArray',
      Inv pStart pEnd inString outArray ->
      pText !! pEnd = Some c -> c <> NUL ->
      tokenize_switch pText c pStart pEnd inString outArray
      = Ret (pStart', inString', outArray') ->
      Inv pStart' (S pEnd) inString' outArray') ->
  Inv 0 0 false [] ->
  tokenize pText = Ret tokens ->
  exists pStart',
    Inv pStart' (length (until_nul pText)) false tokens
    /\ take (length (until_nul pText)) pText = until_nul pText.
Proof.
  intros Hstep H0 H. unfold tokenize in H.
  apply (tokenize_loop_invariant pText Inv Hstep pText 0 0 false [] tokens)
    in H; [|reflexivity|exact H0].
  destruct H as (ps & pe & H1 & _ & H3 & H4).
  destruct (first_nul_until_nul pText pe H3) as [E1 E2].
  { intros i Hi. apply H4. lia. }
  exists ps. rewrite <- E2. split; [exact H1 | exact E1].
Qed.

(** ** The cases of the switch *)

Lemma is_blank_not_quote (c : ascii) :
  is_blank c = true -> Ascii.eqb c DQUOTE = false.
Proof.
  unfold is_blank. intros H.
  destruct (Ascii.eqb c SPACE) eqn:E1;
    [apply Ascii.eqb_eq in E1; subst c; reflexivity|].
  destruct (Ascii.eqb c LF) eqn:E2;
    [apply Ascii.eqb_eq in E2; subst c; reflexivity|].
  destruct (Ascii.eqb c CR) eqn:E3;
    [apply Ascii.eqb_eq in E3; subst c; reflexivity|].
  destruct (Ascii.eqb c TAB) eqn:E4;
    [apply Ascii.eqb_eq in E4; subst c; reflexivity|].
  discriminate H.
Qed.

(** One pass through the switch on a character other than NUL either
    leaves the variables alone (a character of a run, or anything but a
    quote inside a string literal), or closes the pending run on a blank, a
    parenthesis or an opening quote, or emits the [String] token on the
    closing quote. *)
Lemma tokenize_switch_inv (pText : list ascii) (c : ascii)
    (pStart pEnd : nat) (inString : bool) (outArray : TokenArray)
    (pStart' : nat) (inString' : bool) (outArray' : TokenArray) :
  c <> NUL ->
  tokenize_switch pText c pStart pEnd inString outArray
  = Ret (pStart', inString', outArray') ->
  (inert inString c = true
   /\ pStart' = pStart /\ inString' = inString /\ outArray' = outArray)
  \/ (inString = false /\ inString' = false /\ pStart' = pEnd + 1
      /\ exists o, appendText pText pStart pEnd outArray = Ret o
         /\ ((is_blank c = true /\ outArray' = o)
             \/ (c = LPAREN /\ outArray' = o ++ [tk LP pEnd (pEnd + 1)])
             \/ (c = RPAREN /\ outArray' = o ++ [tk RP pEnd (pEnd + 1)])))
  \/ (inString = false /\ inString' = true /\ pStart' = pEnd + 1
      /\ c = DQUOTE /\ appendText pText pStart pEnd outArray = Ret outArray')
  \/ (inString = true /\ inString' = false /\ pStart' = pEnd + 1
      /\ c = DQUOTE /\ outArray' = outArray ++ [tk STRING pStart pEnd]).
Proof.
  intros Hnul H. apply Ascii.eqb_neq in Hnul.
  unfold tokenize_switch in H. unfold inert. rewrite Hnul.
  destruct (is_blank c) eqn:Eb.
  { rewrite (is_blank_not_quote c Eb).
    destruct inString.
    - injection H as <- <- <-. left. repeat split; reflexivity.
    - apply bind_Ret_inv in H. destruct H as (o & Ha & H).
      injection H as <- <- <-. right. left.
      repeat split. exists o. split; [exact Ha|]. left. split; reflexivity. }
  destruct (Ascii.eqb c LPAREN) eqn:El.
  { apply Ascii.eqb_eq in El. subst c.
    destruct inString.
    - injection H as <- <- <-. left. repeat split; reflexivity.
    - apply bind_Ret_inv in H. destruct H as (o & Ha & H).
      injection H as <- <- <-. right. left.
      repeat split. exists o. split; [exact Ha|].
      right. left. split; reflexivity. }
  destruct (Ascii.eqb c RPAREN) eqn:Er.
  { apply Ascii.eqb_eq in Er. subst c.
    destruct inString.
    - injection H as <- <- <-. left. repeat split; reflexivity.
    - apply bind_Ret_inv in H. destruct H as (o & Ha & H).
      injection H as <- <- <-. right. left.
      repeat split. exists o. split; [exact Ha|].
      right. right. split; reflexivity. }
  destruct (Ascii.eqb c DQUOTE) eqn:Eq.
  { apply Ascii.eqb_eq in Eq. subst c.
    destruct inString.
    - injection H as <- <- <-. right. right. right.
      repeat split; reflexivity.
    - apply bind_Ret_inv in H. destruct H as (o & Ha & H).
      injection H as <- <- <-. right. right. left.
      repeat split. exact Ha. }
  injection H as <- <- <-. left.
  split; [destruct inString; reflexivity | repeat split; reflexivity].
Qed.

(** What [appendText] appends is one token that is no [String] and no
    parenthesis, starting at [pStart] and ending at or before [pEnd]. *)
Lemma appendText_token (pText : list ascii) (pStart pEnd : nat)
    (outArray outArray' : TokenArray) :
  pStart <= pEnd ->
  appendText pText pStart pEnd outArray = Ret outArray' ->
  outArray' = outArray
  \/ exists t, outArray' = outArray ++ [t]
       /\ Token.pStart t = pStart
       /\ pStart <= Token.pEnd t /\ Token.pEnd t <= pEnd
       /\ (Token.type t = NAME \/ Token.type t = I32 \/ Token.type t = F32).
Proof.
  intros Hle H. apply appendText_inv in H.
  destruct H as [[_ ->]|[Hne (t & -> & Hs & Hcase)]]; [left; reflexivity|].
  right. exists t. split; [reflexivity|]. split; [exact Hs|].
  destruct Hcase as [(Hty & He & _)|[(Hty & _ & He & Hl)|(Hty & _ & _ & He & Hl)]].
  - rewrite He. repeat split; try lia. left. exact Hty.
  - rewrite <- Hs. split; [exact Hl|]. split; [lia|]. right. right. exact Hty.
  - rewrite <- Hs. split; [exact Hl|]. split; [lia|]. right. left. exact Hty.
Qed.

Lemma count_type_app (ty : TokenType) (l1 l2 : TokenArray) :
  count_type ty (l1 ++ l2) = count_type ty l1 + count_type ty l2.
Proof.
  unfold count_type. rewrite filter_app, length_app. reflexivity.
Qed.

(** ** Quotes come in pairs *)

Lemma count_quotes_snoc (s : list ascii) (c : ascii) :
  count_quotes (s ++ [c])
  = count_quotes s + (if Ascii.eqb c DQUOTE then 1 else 0).
Proof.
  unfold count_quotes. rewrite List.filter_app, length_app. simpl.
  destruct (Ascii.eqb c DQUOTE); reflexivity.
Qed.

Lemma inert_not_quote (inString : bool) (c : ascii) :
  inert inString c = true -> Ascii.eqb c DQUOTE = false.
Proof.
  unfold inert. destruct (Ascii.eqb c NUL), (Ascii.eqb c DQUOTE);
    simpl; intros H; try discriminate H; reflexivity.
Qed.

Lemma quotes_step (pText : list ascii) (c : ascii) (pStart pEnd : nat)
    (inString : bool) (outArray : TokenArray)
    (pStart' : nat) (inString' : bool) (outArray' : TokenArray) :
  count_quotes (take pEnd pText)
  = 2 * count_type STRING outArray + (if inString then 1 else 0) ->
  pText !! pEnd = Some c -> c <> NUL ->
  tokenize_switch pText c pStart pEnd inString outArray
  = Ret (pStart', inString', outArray') ->
  count_quotes (take (S pEnd) pText)
  = 2 * count_type STRING outArray' + (if inString' then 1 else 0).
Proof.
  intros HI Hc Hnul Hsw.
  rewrite (take_S_r _ _ _ Hc), count_quotes_snoc, HI.
  apply tokenize_switch_inv in Hsw; [|exact Hnul].
  assert (Happ : forall o, appendText pText pStart pEnd outArray = Ret o ->
                           count_type STRING o = count_type STRING outArray).
  { intros o Ha. apply appendText_inv in Ha.
    destruct Ha as [[_ ->]|[_ (t & -> & _ & Hcase)]]; [reflexivity|].
    rewrite count_type_app, count_type_cons, count_type_nil.
    destruct (decide (Token.type t = STRING)) as [e|_]; [|lia].
    destruct Hcase as [(Hty & _)|[(Hty & _)|(Hty & _)]]; congruence. }
  destruct Hsw as [(Hin & -> & -> & ->)
                  |[(-> & -> & -> & o & Ha & Hcase)
                   |[(-> & -> & -> & -> & Ha)
                    |(-> & -> & -> & -> & ->)]]].
  - rewrite (inert_not_quote _ _ Hin). lia.
  - apply Happ in Ha.
    destruct Hcase as [[Hb ->]|[[-> ->]|[-> ->]]].
    + rewrite (is_blank_not_quote c Hb), Ha. lia.
    + rewrite count_type_app, Ha. vm_compute (count_type _ [_]).
      vm_compute (Ascii.eqb _ _). cbv iota. lia.
    + rewrite count_type_app, Ha. vm_compute (count_type _ [_]).
      vm_compute (Ascii.eqb _ _). cbv iota. lia.
  - apply Happ in Ha. rewrite Ha. vm_compute (Ascii.eqb _ _).
    cbv iota. lia.
  - rewrite count_type_app. vm_compute (count_type _ [_]).
    vm_compute (Ascii.eqb _ _). cbv iota. lia.
Qed.

(** X2. When [tokenize] returns, the quotes of the text are matched and
    each pair has given one [String] token: the text holds twice as many
    quote characters as there are [String] tokens. *)
Theorem tokenize_quotes_paired (pText : list ascii) (tokens : TokenArray) :
  tokenize pText = Ret tokens ->
  count_quotes (until_nul pText) = 2 * count_type STRING tokens.
Proof.
  intros H.
  apply (tokenize_invariant pText
           (fun _ pEnd inString outArray =>
              count_quotes (take pEnd pText)
              = 2 * count_type STRING outArray
                + (if inString then 1 else 0))) in H.
  - destruct H as (_ & H & E). rewrite E in H. lia.
  - intros c pStart pEnd inString outArray pStart' inString' outArray'.
    apply quotes_step.
  - reflexivity.
Qed.

Lemma tokenize_quotes_paired_witness :
  count_quotes (until_nul ([DQUOTE] ++ src "a" ++ [DQUOTE; SPACE; DQUOTE; DQUOTE]))
  = 2 * count_type STRING [tk STRING 1 2; tk STRING 5 5].
Proof.
  apply (tokenize_quotes_paired
           ([DQUOTE] ++ src "a" ++ [DQUOTE; SPACE; DQUOTE; DQUOTE])).
  vm_compute. reflexivity.
Defined.

(** X3. A text with an odd number of quote characters, that is with a
    string literal left open, makes [tokenize] abort: no token sequence
    is returned. *)
Theorem tokenize_open_string_aborts (pText : list ascii) :
  Nat.odd (count_quotes (until_nul pText)) = true ->
  aborts (tokenize pText).
Proof.
  intros Hodd. destruct (tokenize pText) as [tokens|msg] eqn:H.
  - apply (tokenize_invariant pText
             (fun _ pEnd inString outArray =>
                count_quotes (take pEnd pText)
                = 2 * count_type STRING outArray
                  + (if inString then 1 else 0))) in H.
    + destruct H as (_ & H & E). rewrite E, Nat.add_0_r in H.
      rewrite H, Nat.odd_mul in Hodd. discriminate Hodd.
    + intros c pStart pEnd inString outArray pStart' inString' outArray'.
      apply quotes_step.
    + reflexivity.
  - apply aborts_Abort.
Qed.

Lemma tokenize_open_string_aborts_witness :
  aborts (tokenize ([LPAREN; DQUOTE] ++ src "abc)")).
Proof.
  apply (tokenize_open_string_aborts ([LPAREN; DQUOTE] ++ src "abc)")).
  vm_compute. reflexivity.
Defined.

(** ** Tokens come in source order *)

Lemma spans_between_weaken (tokens : TokenArray) :
  forall (lo hi hi' : nat),
    spans_between lo tokens hi -> hi <= hi' -> spans_between lo tokens hi'.
Proof.
  induction tokens as [|t ts IH]; intros lo hi hi' H Hle; simpl in *.
  - lia.
  - destruct H as (H1 & H2 & H3). repeat split; [lia | lia |].
    eapply IH; eassumption.
Qed.

Lemma spans_between_snoc (tokens : TokenArray) (t : Token) :
  forall (lo hi hi' : nat),
    spans_between lo tokens hi ->
    hi <= Token.pStart t -> Token.pStart t <= Token.pEnd t ->
    Token.pEnd t <= hi' ->
    spans_between lo (tokens ++ [t]) hi'.
Proof.
  induction tokens as [|u ts IH]; intros lo hi hi' H H1 H2 H3; simpl in *.
  - repeat split; lia.
  - destruct H as (Ha & Hb & Hc). repeat split; [lia | lia |].
    eapply IH; eassumption.
Qed.

(** X4. The tokens [tokenize] returns are in source order: their spans
    follow one another from the start of the text without overlapping,
    none ends before it starts, and the last one ends within the text
    (before its first NUL). *)
Theorem tokenize_spans_ordered (pText : list ascii) (tokens : TokenArray) :
  tokenize pText = Ret tokens ->
  spans_between 0 tokens (length (until_nul pText)).
Proof.
  intros H.
  apply (tokenize_invariant pText
           (fun pStart pEnd _ outArray =>
              spans_between 0 outArray pStart /\ pStart <= pEnd)) in H.
  - destruct H as (ps & [H Hle] & _).
    eapply spans_between_weaken; eassumption.
  - intros c pStart pEnd inString outArray pStart' inString' outArray'
           [HI Hle] Hc Hnul Hsw.
    apply tokenize_switch_inv in Hsw; [|exact Hnul].
    assert (Happ : forall o, appendText pText pStart pEnd outArray = Ret o ->
                             spans_between 0 o pEnd).
    { intros o Ha. apply appendText_token in Ha; [|exact Hle].
      destruct Ha as [->|(t & -> & Hs & H1 & H2 & _)].
      - eapply spans_between_weaken; eassumption.
      - eapply spans_between_snoc; [exact HI | lia | lia | lia]. }
    destruct Hsw as [(Hin & -> & -> & ->)
                    |[(-> & -> & -> & o & Ha & Hcase)
                     |[(-> & -> & -> & -> & Ha)
                      |(-> & -> & -> & -> & ->)]]].
    + split; [exact HI | lia].
    + apply Happ in Ha. split; [|lia].
      destruct Hcase as [[Hb ->]|[[-> ->]|[-> ->]]].
      * eapply spans_between_weaken; [exact Ha | lia].
      * eapply spans_between_snoc; [exact Ha | simpl; lia ..].
      * eapply spans_between_snoc; [exact Ha | simpl; lia ..].
    + apply Happ in Ha. split; [|lia].
      eapply spans_between_weaken; [exact Ha | lia].
    + split; [|lia].
      eapply spans_between_snoc; [exact HI | simpl; lia ..].
  - simpl. split; lia.
Qed.

Lemma tokenize_spans_ordered_witness :
  spans_between 0 [tk LP 0 1; tk NAME 1 2; Token.mk I32 3 4 float_zero 7;
                   tk RP 7 8] 8.
Proof.
  apply (tokenize_spans_ordered (src "(a 7i32)")). vm_compute. reflexivity.
Defined.

(** ** The text of each token *)

Lemma appendText_cases (pText : list ascii) (pStart pEnd : nat)
    (outArray outArray' : TokenArray) :
  pStart <= pEnd ->
  appendText pText pStart pEnd outArray = Ret outArray' ->
  (pStart = pEnd /\ outArray' = outArray)
  \/ (pStart < pEnd
      /\ exists t, outArray' = outArray ++ [t]
         /\ (t = tk NAME pStart pEnd
             /\ search pText pStart pEnd pat_f32 = None
             /\ search pText pStart pEnd pat_i32 = None
             \/ (exists f,
                   t = Token.mk F32 pStart (pEnd - 3) f 0
                   /\ pStart + 3 <= pEnd
                   /\ search pText pStart pEnd pat_f32 = Some (pEnd - 3)
                   /\ strtof (c_string pText pStart)
                      = (f, pEnd - 3 - pStart))
             \/ (exists l,
                   t = Token.mk I32 pStart (pEnd - 3) float_zero (to_int32 l)
                   /\ pStart + 3 <= pEnd
                   /\ search pText pStart pEnd pat_f32 = None
                   /\ search pText pStart pEnd pat_i32 = Some (pEnd - 3)
                   /\ strtol (c_string pText pStart)
                      = (l, pEnd - 3 - pStart)))).
Proof.
  intros Hle. unfold appendText. case_bool_decide as Hne.
  2:{ intros [= <-]. left. split; [|reflexivity].
      destruct (decide (pStart = pEnd)); [assumption|contradiction]. }
  intros H. right. split; [lia|].
  destruct (search pText pStart pEnd pat_f32) as [pC|] eqn:Hf.
  - destruct (pC =? pEnd - 3) eqn:E1; [|discriminate H].
    apply Nat.eqb_eq in E1. subst pC. simpl in H.
    pose proof (search_bound _ _ _ _ _ Hle Hf) as [Hb1 Hb2].
    simpl in Hb2.
    destruct (strtof (c_string pText pStart)) as [f n] eqn:Hs.
    destruct (pStart + n =? pEnd - 3) eqn:E2; [|discriminate H].
    apply Nat.eqb_eq in E2. simpl in H. injection H as <-.
    eexists. split; [reflexivity|]. right. left. exists f.
    rewrite E2. repeat split; try lia. f_equal. lia.
  - destruct (search pText pStart pEnd pat_i32) as [pC|] eqn:Hi.
    + destruct (pC =? pEnd - 3) eqn:E1; [|discriminate H].
      apply Nat.eqb_eq in E1. subst pC. simpl in H.
      pose proof (search_bound _ _ _ _ _ Hle Hi) as [Hb1 Hb2].
      simpl in Hb2.
      destruct (strtol (c_string pText pStart)) as [l n] eqn:Hs.
      destruct (pStart + n =? pEnd - 3) eqn:E2; [|discriminate H].
      apply Nat.eqb_eq in E2. simpl in H. injection H as <-.
      eexists. split; [reflexivity|]. right. right. exists l.
      rewrite E2. repeat split; try lia. f_equal. lia.
    + injection H as <-.
      eexists. split; [reflexivity|]. left. repeat split; reflexivity.
Qed.

Lemma Forall_slice {A : Type} (P : A -> Prop) (buf : list A) (a b : nat) :
  (forall i c, a <= i < b -> buf !! i = Some c -> P c) ->
  Forall P (take (b - a) (drop a buf)).
Proof.
  intros H. apply Forall_lookup. intros i x Hx.
  apply lookup_take_Some in Hx. destruct Hx as [Hx Hi].
  rewrite lookup_drop in Hx. apply (H (a + i)); [lia | exact Hx].
Qed.

Lemma slice_one {A : Type} (buf : list A) (p : nat) (c : A) :
  buf !! p = Some c -> take (p + 1 - p) (drop p buf) = [c].
Proof.
  intros H. replace (p + 1 - p) with 1 by lia.
  rewrite (drop_S _ _ _ H). reflexivity.
Qed.

Lemma slice_occurrence {A : Type} (buf pat l r : list A) (a b : nat) :
  a <= b -> b <= length buf ->
  take (b - a) (drop a buf) = l ++ pat ++ r ->
  a + length l + length pat <= b
  /\ take (length pat) (drop (a + length l) buf) = pat.
Proof.
  intros Hab Hb H.
  assert (Hlen : b - a = length l + (length pat + length r)).
  { rewrite <- !length_app, <- H, length_take, length_drop. lia. }
  split; [lia|].
  rewrite <- drop_drop.
  rewrite <- (take_drop (b - a) (drop a buf)), H.
  rewrite <- !app_assoc, drop_app_length, take_app_length. reflexivity.
Qed.

Lemma search_none_slice (pText pPat l r : list ascii) (pStart pEnd : nat) :
  pStart <= pEnd -> pEnd <= length pText ->
  search pText pStart pEnd pPat = None ->
  pPat <> [] ->
  take (pEnd - pStart) (drop pStart pText) <> l ++ pPat ++ r.
Proof.
  intros Hle Hend Hs Hne H.
  apply slice_occurrence in H; [|exact Hle|exact Hend].
  destruct H as [Hb Hocc].
  pose proof (search_spec pText pPat pStart pEnd Hle Hend) as Hsp.
  rewrite Hs in Hsp. apply (Hsp (pStart + length l)).
  - destruct pPat; [congruence|]. simpl in Hb. lia.
  - split; [lia | exact Hocc].
Qed.

Lemma search_some_suffix (pText pPat : list ascii) (pStart pEnd pC : nat) :
  pStart <= pEnd -> pEnd <= length pText ->
  search pText pStart pEnd pPat = Some pC ->
  take (length pPat) (drop pC pText) = pPat.
Proof.
  intros Hle Hend Hs.
  pose proof (search_spec pText pPat pStart pEnd Hle Hend) as Hsp.
  rewrite Hs in Hsp. apply Hsp.
Qed.

Lemma appendText_text_ok (pText : list ascii) (pStart pEnd : nat)
    (outArray outArray' : TokenArray) :
  pStart <= pEnd -> pEnd <= length pText ->
  (forall i c, pStart <= i < pEnd -> pText !! i = Some c ->
               inert false c = true) ->
  Forall (token_text_ok pText) outArray ->
  appendText pText pStart pEnd outArray = Ret outArray' ->
  Forall (token_text_ok pText) outArray'.
Proof.
  intros Hle Hend Hrun HF H. apply appendText_cases in H; [|exact Hle].
  destruct H as [[_ ->]|[Hlt (t & -> & Hcase)]]; [exact HF|].
  apply Forall_app. split; [exact HF|]. constructor; [|constructor].
  destruct Hcase as [(-> & Hf & Hi)
                    |[(f & -> & Hb & Hf & Hs)|(l & -> & Hb & Hf & Hi & Hs)]];
    unfold token_text_ok, span_text, tk;
    cbn [Token.type Token.pStart Token.pEnd Token.i32 Token.f32].
  - split; [|split; [|split]].
    + intros E. apply (f_equal length) in E.
      rewrite length_take, length_drop in E. simpl in E. lia.
    + apply Forall_slice. exact Hrun.
    + intros a b. apply search_none_slice; try assumption. discriminate.
    + intros a b. apply search_none_slice; try assumption. discriminate.
  - split; [|split].
    + apply Forall_slice. intros i c Hi. apply Hrun. lia.
    + apply (search_some_suffix pText pat_f32 pStart pEnd); assumption.
    + exact Hs.
  - split; [|split].
    + apply Forall_slice. intros i c Hi'. apply Hrun. lia.
    + apply (search_some_suffix pText pat_i32 pStart pEnd); assumption.
    + exists l. split; [exact Hs | reflexivity].
Qed.

Lemma inert_true_of_false (c : ascii) :
  inert false c = true -> inert true c = true.
Proof.
  unfold inert. destruct (Ascii.eqb c NUL), (Ascii.eqb c DQUOTE);
    simpl; intros H; try discriminate H; reflexivity.
Qed.

Lemma inert_string_char (c : ascii) :
  inert true c = true -> c <> DQUOTE /\ c <> NUL.
Proof.
  unfold inert. intros H.
  destruct (Ascii.eqb c NUL) eqn:E1; [discriminate H|].
  destruct (Ascii.eqb c DQUOTE) eqn:E2; [discriminate H|].
  apply Ascii.eqb_neq in E1. apply Ascii.eqb_neq in E2. split; assumption.
Qed.

(** X5. Every token [tokenize] returns spans the text its kind announces:
    a parenthesis token spans that parenthesis; a [String] token spans what
    lies between two quotes, without any quote inside; a [Name] token
    spans a non-empty run of characters that are no blank, parenthesis or
    quote, in which neither [f32] nor [i32] occurs; an [I32] or [F32]
    token spans the part of such a run before the suffix that follows it,
    and its value is what [strtol] or [strtof] converts, having consumed
    exactly the span. *)
Theorem tokenize_token_texts (pText : list ascii) (tokens : TokenArray) :
  tokenize pText = Ret tokens ->
  Forall (token_text_ok pText) tokens.
Proof.
  intros H.
  apply (tokenize_invariant pText
           (fun pStart pEnd inString outArray =>
              Forall (token_text_ok pText) outArray
              /\ pStart <= pEnd /\ pEnd <= length pText
              /\ (forall i c, pStart <= i < pEnd -> pText !! i = Some c ->
                              inert inString c = true)
              /\ (inString = true ->
                  1 <= pStart /\ pText !! (pStart - 1) = Some DQUOTE)))
    in H.
  - destruct H as (ps & (H & _) & _). exact H.
  - intros c pStart pEnd inString outArray pStart' inString' outArray'
           (HF & Hle & Hend & Hrun & Hq) Hc Hnul Hsw.
    pose proof (lookup_lt_Some _ _ _ Hc) as Hlt.
    apply tokenize_switch_inv in Hsw; [|exact Hnul].
    destruct Hsw as [(Hin & -> & -> & ->)
                    |[(-> & -> & -> & o & Ha & Hcase)
                     |[(-> & -> & -> & -> & Ha)
                      |(-> & -> & -> & -> & ->)]]].
    + split; [exact HF|]. split; [lia|]. split; [lia|]. split; [|exact Hq].
      intros i x Hi Hx. destruct (decide (i = pEnd)) as [->|Hne].
      * rewrite Hc in Hx. injection Hx as <-. exact Hin.
      * apply (Hrun i); [lia | exact Hx].
    + apply appendText_text_ok in Ha; try assumption.
      split; [|split; [lia|split; [lia|split;
                [intros i x Hi; lia | intros E; discriminate E]]]].
      destruct Hcase as [[Hb ->]|[[-> ->]|[-> ->]]]; [exact Ha | |];
        (apply Forall_app; split; [exact Ha|]; constructor; [|constructor]);
        unfold token_text_ok, span_text; simpl; apply slice_one; exact Hc.
    + apply appendText_text_ok in Ha; try assumption.
      split; [exact Ha|]. split; [lia|]. split; [lia|].
      split; [intros i x Hi; lia|].
      intros _. split; [lia|].
      replace (pEnd + 1 - 1) with pEnd by lia. exact Hc.
    + destruct (Hq eq_refl) as [Hq1 Hq2].
      split; [|split; [lia|split; [lia|split;
                [intros i x Hi; lia | intros E; discriminate E]]]].
      apply Forall_app. split; [exact HF|]. constructor; [|constructor].
      unfold token_text_ok, span_text. simpl.
      split; [|split; [exact Hq1 | split; [exact Hq2 | exact Hc]]].
      apply Forall_slice. intros i x Hi Hx.
      apply inert_string_char. apply (Hrun i); assumption.
  - split; [constructor|]. split; [lia|]. split; [lia|].
    split; [intros i c Hi; lia | intros E; discriminate E].
Qed.

Lemma tokenize_token_texts_witness :
  let pText := [LPAREN; DQUOTE] ++ src "a b" ++ [DQUOTE]
               ++ src " xy -12i32 0.1f32 1e40f32 )" in
  Forall (token_text_ok pText)
    [tk LP 0 1; tk STRING 2 5; tk NAME 7 9;
     Token.mk I32 10 13 float_zero (-12);
     Token.mk F32 17 20 (Fnum false (13421773 # 134217728)) 0;
     Token.mk F32 24 28 (Finf false) 0;
     tk RP 32 33].
Proof.
  apply (tokenize_token_texts ([LPAREN; DQUOTE] ++ src "a b" ++ [DQUOTE]
                               ++ src " xy -12i32 0.1f32 1e40f32 )")).
  vm_compute. reflexivity.
Defined.

(** ** Decimal integer literals *)

Lemma isdigit_facts (c : ascii) :
  isdigit c = true ->
  inert false c = true /\ isspace c = false
  /\ Ascii.eqb c "-"%char = false /\ Ascii.eqb c "+"%char = false
  /\ c <> "i"%char /\ c <> "f"%char /\ c <> NUL.
Proof.
  destruct c as [[|] [|] [|] [|] [|] [|] [|] [|]];
    vm_compute; intros H; try discriminate H;
    repeat split; try reflexivity; discriminate.
Qed.

Lemma span_while_app (p : ascii -> bool) (l : list ascii) (c : ascii)
    (r : list ascii) :
  Forall (fun x => p x = true) l -> p c = false ->
  span_while p (l ++ c :: r) = (l, c :: r).
Proof.
  intros Hl Hc. induction Hl as [|x l Hx _ IH]; simpl.
  - rewrite Hc. reflexivity.
  - rewrite Hx, IH. reflexivity.
Qed.

Lemma until_nul_id (l : list ascii) :
  Forall (fun c => c <> NUL) l -> until_nul l = l.
Proof. intros H. apply (until_nul_stop [] l H). Qed.

Lemma occurrence_head (buf pat : list ascii) (c : ascii) (j : nat) :
  take (length (c :: pat)) (drop j buf) = c :: pat -> buf !! j = Some c.
Proof.
  intros H. apply (f_equal (fun l => l !! 0)) in H. simpl in H.
  destruct (drop j buf) as [|x r] eqn:E; [discriminate H|].
  simpl in H. injection H as ->.
  apply drop_cons_inv in E. apply E.
Qed.

Lemma search_char_absent (run tail pat : list ascii) (c : ascii) :
  Forall (fun x => x <> c) run ->
  search (run ++ tail) 0 (length run) (c :: pat) = None.
Proof.
  intros Hrun. apply search_absent. intros a b E.
  rewrite E in Hrun. apply Forall_app in Hrun. destruct Hrun as [_ Hrun].
  simpl in Hrun. apply Forall_inv in Hrun. congruence.
Qed.

Lemma search_suffix_found (pre tail pat : list ascii) (c : ascii) :
  Forall (fun x => x <> c) pre ->
  search (pre ++ (c :: pat) ++ tail) 0 (length pre + length (c :: pat))
    (c :: pat)
  = Some (length pre).
Proof.
  intros Hpre.
  pose proof (search_spec (pre ++ (c :: pat) ++ tail) (c :: pat) 0
                (length pre + length (c :: pat))) as Hsp.
  assert (Hocc : take (length (c :: pat))
                   (drop (length pre) (pre ++ (c :: pat) ++ tail))
                 = c :: pat).
  { rewrite drop_app_length, take_app_length. reflexivity. }
  destruct (search _ _ _ _) as [pC|].
  - destruct Hsp as (_ & _ & Hb & Ho & Hmin);
      [lia | rewrite !length_app; simpl; lia |].
    destruct (Nat.lt_trichotomy pC (length pre)) as [Hlt|[->|Hgt]].
    + apply occurrence_head in Ho.
      rewrite lookup_app_l in Ho by exact Hlt.
      rewrite Forall_lookup in Hpre. apply Hpre in Ho. congruence.
    + reflexivity.
    + exfalso. apply (Hmin (length pre)); [lia|].
      split; [simpl; lia | exact Hocc].
  - exfalso. apply (Hsp ltac:(lia)
                       ltac:(rewrite !length_app; simpl; lia) (length pre)).
    + simpl. lia.
    + split; [simpl; lia | exact Hocc].
Qed.

Lemma digits_value_nonneg (ds : list ascii) :
  Forall (fun c => isdigit c = true) ds -> (0 <= digits_value 10 ds)%Z.
Proof.
  unfold digits_value. intros H.
  assert (G : forall acc, (0 <= acc)%Z ->
              (0 <= fold_left (fun a d => a * 10 + digit_value d) ds acc)%Z).
  { induction H as [|c ds Hc _ IH]; intros acc Hacc; simpl; [exact Hacc|].
    apply IH. unfold digit_value. rewrite Hc.
    unfold isdigit in Hc. apply andb_true_iff in Hc. lia. }
  apply G. lia.
Qed.

Lemma span_while_stop (p : ascii -> bool) (c : ascii) (r : list ascii) :
  p c = false -> span_while p (c :: r) = ([], c :: r).
Proof. intros H. simpl. rewrite H. reflexivity. Qed.

Lemma scan_sign_none (c : ascii) (r : list ascii) :
  Ascii.eqb c "-"%char = false -> Ascii.eqb c "+"%char = false ->
  scan_sign (c :: r) = (false, 0, c :: r).
Proof. intros H1 H2. simpl. rewrite H1, H2. reflexivity. Qed.

(** [strtol] on an optional minus sign and digits followed by a character
    that is no digit. *)
Lemma strtol_digits (neg : bool) (ds : list ascii) (c : ascii)
    (r : list ascii) :
  ds <> [] ->
  Forall (fun x => isdigit x = true) ds ->
  isdigit c = false ->
  strtol ((if neg then ["-"%char] else []) ++ ds ++ c :: r)
  = (Z.max LONG_MIN
       (Z.min LONG_MAX
          (if neg then (- digits_value 10 ds)%Z else digits_value 10 ds)),
     length (if neg then ["-"%char] else []) + length ds).
Proof.
  intros Hne Hds Hc. destruct ds as [|d0 ds']; [congruence|].
  pose proof (Forall_inv Hds) as Hd0. apply isdigit_facts in Hd0.
  destruct Hd0 as (_ & Hsp & Hm & Hp & _).
  unfold strtol. destruct neg.
  - change (["-"%char] ++ (d0 :: ds') ++ c :: r)
      with ("-"%char :: (d0 :: ds') ++ c :: r).
    rewrite span_while_stop by reflexivity. cbv beta iota zeta.
    change (scan_sign ("-"%char :: (d0 :: ds') ++ c :: r))
      with (true, 1, (d0 :: ds') ++ c :: r).
    cbv beta iota zeta.
    rewrite (span_while_app isdigit (d0 :: ds') c r Hds Hc).
    reflexivity.
  - change ([] ++ (d0 :: ds') ++ c :: r) with (d0 :: (ds' ++ c :: r)).
    rewrite span_while_stop by exact Hsp. cbv beta iota zeta.
    rewrite scan_sign_none by assumption. cbv beta iota zeta.
    change (d0 :: (ds' ++ c :: r)) with ((d0 :: ds') ++ c :: r).
    rewrite (span_while_app isdigit (d0 :: ds') c r Hds Hc).
    reflexivity.
Qed.

(** X6. A run made of an optional minus sign, decimal digits and the
    suffix [i32], closed by a blank, yields one [I32] token spanning the
    sign and the digits. Its value is the number the digits denote,
    saturated to the range of [long] and then reduced modulo [2^32]; it is
    that number itself when the digits denote less than [2^31]. *)
Theorem tokenize_decimal_i32 (neg : bool) (ds : list ascii) (d : ascii) :
  ds <> [] ->
  Forall (fun c => isdigit c = true) ds ->
  is_blank d = true ->
  let sign := if neg then ["-"%char] else [] in
  let v := if neg then (- digits_value 10 ds)%Z else digits_value 10 ds in
  tokenize (sign ++ ds ++ pat_i32 ++ [d])
  = Ret [Token.mk I32 0 (length sign + length ds) float_zero
           (to_int32 (Z.max LONG_MIN (Z.min LONG_MAX v)))]
  /\ ((digits_value 10 ds < 2 ^ 31)%Z ->
      to_int32 (Z.max LONG_MIN (Z.min LONG_MAX v)) = v).
Proof.
  intros Hne Hds Hd sign v. split.
  - assert (Hsign : Forall (fun c => inert false c = true
                                    /\ c <> "i"%char /\ c <> "f"%char
                                    /\ c <> NUL) sign).
    { unfold sign. destruct neg; repeat constructor; discriminate. }
    assert (Hpre : Forall (fun c => inert false c = true
                                   /\ c <> "i"%char /\ c <> "f"%char
                                   /\ c <> NUL) (sign ++ ds)).
    { apply Forall_app. split; [exact Hsign|].
      eapply Forall_impl; [exact Hds|]. intros c Hc.
      apply isdigit_facts in Hc.
      destruct Hc as (? & ? & ? & ? & ? & ? & ?). repeat split; assumption. }
    assert (Hrun : Forall (fun c => inert false c = true)
                     ((sign ++ ds) ++ pat_i32)).
    { apply Forall_app. split.
      - eapply Forall_impl; [exact Hpre|]. intros c Hc. apply Hc.
      - repeat constructor. }
    replace (sign ++ ds ++ pat_i32 ++ [d])
      with (((sign ++ ds) ++ pat_i32) ++ [d])
      by (rewrite <- !app_assoc; reflexivity).
    unfold tokenize. rewrite tokenize_loop_inert by exact Hrun.
    simpl tokenize_loop. rewrite (is_blank_not_nul d Hd).
    unfold tokenize_switch. rewrite Hd.
    unfold appendText.
    assert (Hf : search (((sign ++ ds) ++ pat_i32) ++ [d]) 0
                   (length ((sign ++ ds) ++ pat_i32)) pat_f32 = None).
    { apply search_char_absent. apply Forall_app. split.
      - eapply Forall_impl; [exact Hpre|]. intros c Hc. apply Hc.
      - repeat constructor; discriminate. }
    assert (Hi : search (((sign ++ ds) ++ pat_i32) ++ [d]) 0
                   (length ((sign ++ ds) ++ pat_i32)) pat_i32
                 = Some (length (sign ++ ds))).
    { rewrite <- app_assoc, length_app. apply search_suffix_found.
      eapply Forall_impl; [exact Hpre|]. intros c Hc. apply Hc. }
    rewrite Hf, Hi.
    assert (Hs : strtol (c_string (((sign ++ ds) ++ pat_i32) ++ [d]) 0)
                 = (Z.max LONG_MIN (Z.min LONG_MAX v),
                    length sign + length ds)).
    { unfold c_string. rewrite drop_0, until_nul_id.
      2:{ apply Forall_app. split.
          - eapply Forall_impl; [exact Hrun|]. intros c Hc E. subst c.
            discriminate Hc.
          - constructor; [|constructor]. intros E. subst d.
            discriminate Hd. }
      rewrite <- !app_assoc.
      change (pat_i32 ++ [d]) with ("i"%char :: ["3"%char; "2"%char; d]).
      apply strtol_digits; [exact Hne | exact Hds | reflexivity]. }
    rewrite Hs.
    case_bool_decide as Hlen.
    2:{ exfalso. rewrite !length_app in Hlen. simpl in Hlen. lia. }
    assert (E1 : (length (sign ++ ds)
                  =? length ((sign ++ ds) ++ pat_i32) - 3) = true).
    { apply Nat.eqb_eq. rewrite !length_app. simpl. lia. }
    assert (E2 : (0 + (length sign + length ds)
                  =? length ((sign ++ ds) ++ pat_i32) - 3) = true).
    { apply Nat.eqb_eq. rewrite !length_app. simpl. lia. }
    rewrite E1. cbn [assert bind]. rewrite E2. reflexivity.
  - intros Hlt. pose proof (digits_value_nonneg ds Hds) as Hge.
    unfold to_int32, LONG_MIN, LONG_MAX, v. destruct neg.
    + rewrite Z.min_r, Z.max_r by lia.
      rewrite Z.mod_small by lia. lia.
    + rewrite Z.min_r, Z.max_r by lia.
      rewrite Z.mod_small by lia. lia.
Qed.

Lemma tokenize_decimal_i32_witness :
  tokenize (src "-2147483648i32 ")
  = Ret [Token.mk I32 0 11 float_zero (-2147483648)]
  /\ tokenize (src "3000000000i32 ")
     = Ret [Token.mk I32 0 10 float_zero (-1294967296)].
Proof.
  split.
  - pose proof (tokenize_decimal_i32 true (src "2147483648") SPACE
                  ltac:(discriminate) ltac:(repeat constructor)
                  ltac:(reflexivity)) as [H _].
    exact H.
  - pose proof (tokenize_decimal_i32 false (src "3000000000") SPACE
                  ltac:(discriminate) ltac:(repeat constructor)
                  ltac:(reflexivity)) as [H _].
    exact H.
Defined.

(** ** Text placed before the scanned text only shifts the spans *)

Section Shift.
Variables pre pText : list ascii.
Variable out0 : TokenArray.

Lemma deref_shift (i : nat) :
  deref (pre ++ pText) (length pre + i) = deref pText i.
Proof.
  unfold deref. rewrite lookup_app_r by lia.
  replace (length pre + i - length pre) with i by lia. reflexivity.
Qed.

Lemma search_inner_shift (pIter pEnd : nat) :
  forall (pJter : list ascii) (offset : nat),
    search_inner (pre ++ pText) pJter
      (length pre + pIter) offset (length pre + pEnd)
    = search_inner pText pJter pIter offset pEnd.
Proof.
  induction pJter as [|c pJter IH]; intros offset; [reflexivity|].
  simpl.
  replace (length pre + pIter + offset =? length pre + pEnd)
    with (pIter + offset =? pEnd)
    by (destruct (pIter + offset =? pEnd) eqn:E; symmetry;
        [apply Nat.eqb_eq; apply Nat.eqb_eq in E; lia
        |apply Nat.eqb_neq; apply Nat.eqb_neq in E; lia]).
  replace (length pre + pIter + offset)
    with (length pre + (pIter + offset)) by lia.
  rewrite deref_shift, IH. reflexivity.
Qed.

Lemma search_outer_shift (pPat : list ascii) (pEnd : nat) :
  forall (n pIter : nat),
    search_outer (pre ++ pText) pPat n
      (length pre + pIter) (length pre + pEnd)
    = option_map (fun pC => length pre + pC)
        (search_outer pText pPat n pIter pEnd).
Proof.
  induction n as [|n IH]; intros pIter; [reflexivity|].
  simpl. rewrite search_inner_shift.
  destruct (search_inner pText pPat pIter 0 pEnd) as [matched pJter].
  destruct (matched && _); [reflexivity|].
  replace (S (length pre + pIter)) with (length pre + S pIter) by lia.
  apply IH.
Qed.

Lemma search_shift (pBegin pEnd : nat) (pPat : list ascii) :
  search (pre ++ pText) (length pre + pBegin) (length pre + pEnd) pPat
  = option_map (fun pC => length pre + pC)
      (search pText pBegin pEnd pPat).
Proof.
  unfold search.
  replace (length pre + pEnd - (length pre + pBegin))
    with (pEnd - pBegin) by lia.
  apply search_outer_shift.
Qed.

Lemma c_string_shift (p : nat) :
  c_string (pre ++ pText) (length pre + p) = c_string pText p.
Proof. unfold c_string. rewrite drop_app_add. reflexivity. Qed.

Lemma shift_push (outArray : TokenArray) (t : Token) :
  push_back (out0 ++ map (shift (length pre)) outArray)
    (shift (length pre) t)
  = out0 ++ map (shift (length pre)) (push_back outArray t).
Proof.
  unfold push_back. rewrite List.map_app, app_assoc. reflexivity.
Qed.

Lemma appendText_shift (pStart pEnd : nat) (outArray : TokenArray) :
  pStart <= pEnd ->
  appendText (pre ++ pText) (length pre + pStart) (length pre + pEnd)
    (out0 ++ map (shift (length pre)) outArray)
  = (o <- appendText pText pStart pEnd outArray ;;
     Ret (out0 ++ map (shift (length pre)) o)).
Proof.
  intros Hle. unfold appendText.
  rewrite !search_shift, c_string_shift.
  replace (bool_decide (length pre + pStart <> length pre + pEnd))
    with (bool_decide (pStart <> pEnd))
    by (apply bool_decide_ext; lia).
  case_bool_decide as Hne; [|reflexivity].
  assert (Hsub : forall pC k, pC + 3 <= pEnd ->
             (length pre + k =? length pre + pEnd - 3) = (k =? pEnd - 3)).
  { intros pC k Hb. destruct (k =? pEnd - 3) eqn:E.
    - apply Nat.eqb_eq. apply Nat.eqb_eq in E. lia.
    - apply Nat.eqb_neq. apply Nat.eqb_neq in E. lia. }
  destruct (search pText pStart pEnd pat_f32) as [pC|] eqn:Hf; simpl.
  - pose proof (search_bound _ _ _ _ _ Hle Hf) as [_ Hb]. simpl in Hb.
    rewrite (Hsub pC pC Hb).
    destruct (pC =? pEnd - 3); [|reflexivity]. simpl.
    destruct (strtof (c_string pText pStart)) as [f n].
    replace (length pre + pStart + n) with (length pre + (pStart + n)) by lia.
    rewrite (Hsub pC (pStart + n) Hb).
    destruct (pStart + n =? pEnd - 3); [|reflexivity]. simpl.
    f_equal.
    exact (shift_push outArray (Token.mk F32 pStart (pStart + n) f 0)).
  - destruct (search pText pStart pEnd pat_i32) as [pC|] eqn:Hi; simpl.
    + pose proof (search_bound _ _ _ _ _ Hle Hi) as [_ Hb]. simpl in Hb.
      rewrite (Hsub pC pC Hb).
      destruct (pC =? pEnd - 3); [|reflexivity]. simpl.
      destruct (strtol (c_string pText pStart)) as [l n].
      replace (length pre + pStart + n)
        with (length pre + (pStart + n)) by lia.
      rewrite (Hsub pC (pStart + n) Hb).
      destruct (pStart + n =? pEnd - 3); [|reflexivity]. simpl.
      f_equal.
      exact (shift_push outArray
               (Token.mk I32 pStart (pStart + n) float_zero (to_int32 l))).
    + f_equal.
      exact (shift_push outArray (Token.mk NAME pStart pEnd float_zero 0)).
Qed.

Lemma tokenize_switch_shift (c : ascii) (pStart pEnd : nat)
    (inString : bool) (outArray : TokenArray) :
  pStart <= pEnd ->
  tokenize_switch (pre ++ pText) c (length pre + pStart) (length pre + pEnd)
    inString (out0 ++ map (shift (length pre)) outArray)
  = (st <- tokenize_switch pText c pStart pEnd inString outArray ;;
     let '(pStart', inString', outArray') := st in
     Ret (length pre + pStart', inString',
          out0 ++ map (shift (length pre)) outArray')).
Proof.
  intros Hle. unfold tokenize_switch.
  rewrite appendText_shift by exact Hle.
  assert (Hs : forall ty o,
             push_back (out0 ++ map (shift (length pre)) o)
               (Token.mk ty (length pre + pEnd) (length pre + pEnd + 1)
                  float_zero 0)
             = out0 ++ map (shift (length pre))
                 (push_back o (Token.mk ty pEnd (pEnd + 1) float_zero 0))).
  { intros ty o. rewrite <- shift_push. unfold shift. simpl.
    do 2 f_equal. lia. }
  assert (Hp : length pre + pEnd + 1 = length pre + (pEnd + 1)) by lia.
  destruct (is_blank c); [|destruct (Ascii.eqb c LPAREN);
    [|destruct (Ascii.eqb c RPAREN); [|destruct (Ascii.eqb c DQUOTE)]]];
    destruct inString; simpl; try reflexivity;
    try (destruct (appendText pText pStart pEnd outArray) as [o|msg];
         simpl; [|reflexivity]);
    rewrite ?Hs, ?Hp; try reflexivity.
  rewrite <- shift_push. reflexivity.
Qed.

Lemma tokenize_loop_shift :
  forall (rest : list ascii) (pStart pEnd : nat) (inString : bool)
         (outArray : TokenArray),
    pStart <= pEnd ->
    tokenize_loop (pre ++ pText) rest
      (length pre + pStart) (length pre + pEnd) inString
      (out0 ++ map (shift (length pre)) outArray)
    = (tokens <- tokenize_loop pText rest pStart pEnd inString outArray ;;
       Ret (out0 ++ map (shift (length pre)) tokens)).
Proof.
  assert (Hend : forall inString outArray,
             tokenize_end inString
               (out0 ++ map (shift (length pre)) outArray)
             = (tokens <- tokenize_end inString outArray ;;
                Ret (out0 ++ map (shift (length pre)) tokens))).
  { intros [|] outArray; reflexivity. }
  induction rest as [|c rest IH];
    intros pStart pEnd inString outArray Hle; simpl.
  - apply Hend.
  - destruct (Ascii.eqb c NUL); [apply Hend|].
    rewrite tokenize_switch_shift by exact Hle.
    destruct (tokenize_switch pText c pStart pEnd inString outArray)
      as [[[pStart' inString'] outArray']|msg] eqn:Hsw; [|reflexivity].
    simpl.
    replace (S (length pre + pEnd)) with (length pre + S pEnd) by lia.
    apply IH. eapply tokenize_switch_pStart; eassumption.
Qed.
End Shift.

Lemma tokenize_loop_blanks (pText rest : list ascii) :
  forall (blanks : list ascii) (p : nat),
    Forall (fun c => is_blank c = true) blanks ->
    tokenize_loop pText (blanks ++ rest) p p false []
    = tokenize_loop pText rest
        (p + length blanks) (p + length blanks) false [].
Proof.
  induction blanks as [|c blanks IH]; intros p Hb.
  - simpl. rewrite Nat.add_0_r. reflexivity.
  - pose proof (Forall_inv Hb) as Hc.
    simpl. rewrite (is_blank_not_nul c Hc).
    unfold tokenize_switch. rewrite Hc. unfold appendText.
    rewrite bool_decide_eq_false_2 by (intros E; apply E; reflexivity).
    simpl. replace (p + 1) with (S p) by lia.
    rewrite IH by apply (Forall_inv_tail Hb). f_equal; lia.
Qed.

(** X7. Blanks before a text change nothing but the positions: the text
    yields the same outcome, each token moved to the right by the number
    of blanks. *)
Theorem tokenize_leading_blanks (blanks pText : list ascii) :
  Forall (fun c => is_blank c = true) blanks ->
  tokenize (blanks ++ pText)
  = (tokens <- tokenize pText ;;
     Ret (map (shift (length blanks)) tokens)).
Proof.
  intros Hb. unfold tokenize.
  rewrite tokenize_loop_blanks by exact Hb.
  pose proof (tokenize_loop_shift blanks pText [] pText 0 0 false []
                ltac:(lia)) as H.
  rewrite !Nat.add_0_r in H. exact H.
Qed.

Lemma tokenize_leading_blanks_witness :
  tokenize ([SPACE; LF; TAB] ++ src "(a 1i32 )")
  = Ret (map (shift 3)
           [tk LP 0 1; tk NAME 1 2; Token.mk I32 3 4 float_zero 1;
            tk RP 8 9]).
Proof.
  rewrite (tokenize_leading_blanks [SPACE; LF; TAB] (src "(a 1i32 )")).
  - vm_compute. reflexivity.
  - repeat constructor.
Defined.

(** ** The tree read back gives the tokens *)

Lemma unparse_list (n : ListNode) :
  is_atom n = false -> unparse n = Open :: forms n ++ [Close].
Proof.
  destruct n as [[[|]|] tok ch]; unfold is_atom; simpl;
    intros H; try discriminate H; reflexivity.
Qed.

Lemma replicate_snoc {A : Type} (n : nat) (x : A) :
  replicate n x ++ [x] = x :: replicate n x.
Proof. induction n as [|n IH]; simpl; [reflexivity | rewrite IH; reflexivity]. Qed.

Lemma last_child_split (n : ListNode) (i : nat) (c : ListNode) :
  S i = length (ListNode.child n) ->
  ListNode.child n !! i = Some c ->
  ListNode.child n = take i (ListNode.child n) ++ [c].
Proof.
  intros Hlen Hc.
  rewrite <- (take_drop i (ListNode.child n)) at 1.
  rewrite (drop_S _ _ _ Hc), drop_ge by lia. reflexivity.
Qed.

Lemma forms_last (n : ListNode) (i : nat) (c : ListNode) :
  S i = length (ListNode.child n) ->
  ListNode.child n !! i = Some c ->
  forms n = concat (map unparse (take i (ListNode.child n))) ++ unparse c.
Proof.
  intros Hlen Hc. unfold forms.
  rewrite (last_child_split n i c Hlen Hc) at 1.
  rewrite List.map_app, concat_app. simpl. rewrite app_nil_r. reflexivity.
Qed.

Lemma forms_closed (p : NodePtr) :
  forall (n : ListNode),
    spine n p ->
    forms n = open_forms n p ++ replicate (length p) Close.
Proof.
  induction p as [|i p IH]; intros n Hsp; simpl.
  - rewrite app_nil_r. reflexivity.
  - destruct Hsp as [Hlen Hsp].
    destruct (ListNode.child n !! i) as [c|] eqn:Hc; [|contradiction].
    destruct Hsp as [Hat Hsp].
    rewrite (forms_last n i c Hlen Hc), (unparse_list c Hat), (IH c Hsp).
    rewrite <- !app_assoc. simpl. rewrite replicate_snoc. reflexivity.
Qed.

Lemma is_atom_emplace_back (n : ListNode) (p : NodePtr) (newNode : ListNode) :
  is_atom (emplace_back n p newNode) = is_atom n.
Proof. destruct p; reflexivity. Qed.

Lemma open_forms_emplace_back (newNode : ListNode) (p : NodePtr) :
  forall (n : ListNode),
    spine n p ->
    open_forms (emplace_back n p newNode) p
    = open_forms n p ++ unparse newNode
    /\ spine (emplace_back n p newNode) p.
Proof.
  induction p as [|i p IH]; intros n Hsp.
  - split; [|exact I]. simpl. unfold forms. simpl.
    rewrite List.map_app, concat_app. simpl. rewrite app_nil_r. reflexivity.
  - destruct Hsp as [Hlen Hsp].
    destruct (ListNode.child n !! i) as [c|] eqn:Hc; [|contradiction].
    destruct Hsp as [Hat Hsp]. destruct (IH c Hsp) as [IH1 IH2].
    simpl. rewrite take_alter_ge by lia.
    rewrite list_lookup_alter_eq, Hc. simpl.
    rewrite length_alter, is_atom_emplace_back, IH1.
    split; [|split; [exact Hlen | split; [exact Hat | exact IH2]]].
    rewrite <- app_assoc. reflexivity.
Qed.

Lemma open_forms_descend (p : NodePtr) :
  forall (n : ListNode),
    spine n p ->
    open_forms (emplace_back n p new_ListNode) (p ++ [child_size n p])
    = open_forms n p ++ [Open]
    /\ spine (emplace_back n p new_ListNode) (p ++ [child_size n p]).
Proof.
  induction p as [|i p IH]; intros n Hsp.
  - unfold child_size. simpl.
    rewrite take_app_length, lookup_app_r by reflexivity.
    rewrite Nat.sub_diag, length_app. simpl.
    split; [reflexivity|]. split; [lia|]. split; [reflexivity | exact I].
  - destruct Hsp as [Hlen Hsp].
    destruct (ListNode.child n !! i) as [c|] eqn:Hc; [|contradiction].
    destruct Hsp as [Hat Hsp]. destruct (IH c Hsp) as [IH1 IH2].
    assert (Hcs : child_size n (i :: p) = child_size c p).
    { unfold child_size. simpl. rewrite Hc. reflexivity. }
    rewrite Hcs. simpl. rewrite take_alter_ge by lia.
    rewrite list_lookup_alter_eq, Hc. simpl.
    rewrite length_alter, is_atom_emplace_back, IH1.
    split; [|split; [exact Hlen | split; [exact Hat | exact IH2]]].
    rewrite <- app_assoc. reflexivity.
Qed.

Lemma open_forms_ascend (i : nat) (p : NodePtr) :
  forall (n : ListNode),
    spine n (p ++ [i]) ->
    open_forms n p = open_forms n (p ++ [i]) ++ [Close] /\ spine n p.
Proof.
  induction p as [|j p IH]; intros n Hsp.
  - split; [|exact I]. simpl in *. destruct Hsp as [Hlen Hsp].
    destruct (ListNode.child n !! i) as [c|] eqn:Hc; [|contradiction].
    destruct Hsp as [Hat _].
    rewrite (forms_last n i c Hlen Hc), (unparse_list c Hat).
    rewrite <- app_assoc. reflexivity.
  - simpl in *. destruct Hsp as [Hlen Hsp].
    destruct (ListNode.child n !! j) as [c|] eqn:Hc; [|contradiction].
    destruct Hsp as [Hat Hsp]. destruct (IH c Hsp) as [IH1 IH2].
    rewrite IH1.
    split; [|split; [exact Hlen | split; [exact Hat | exact IH2]]].
    rewrite <- app_assoc. reflexivity.
Qed.

Lemma ancestors_snoc (p : NodePtr) (i : nat) :
  ancestors (p ++ [i]) = ancestors p ++ [p].
Proof.
  unfold ancestors. rewrite length_app. simpl.
  rewrite Nat.add_1_r, seq_S, List.map_app. simpl.
  rewrite take_app_length. f_equal.
  apply map_ext_in. intros k Hk. apply in_seq in Hk.
  rewrite take_app_le by lia. reflexivity.
Qed.

Lemma ancestors_pop (p : NodePtr) :
  ancestors p <> [] ->
  exists p0 i, p = p0 ++ [i]
    /\ back (ancestors p) = p0 /\ pop_back (ancestors p) = ancestors p0.
Proof.
  destruct p as [|a p] using rev_ind; [intros H; exfalso; apply H; reflexivity|].
  intros _. exists p, a. split; [reflexivity|].
  rewrite ancestors_snoc. unfold back, pop_back.
  rewrite last_snoc, removelast_last. split; reflexivity.
Qed.

Lemma getLists_loop_forms (tokens : TokenArray) :
  forall (root : ListNode) (curNode : NodePtr) (tree : ListNode),
    spine root curNode ->
    getLists_loop tokens root (ancestors curNode) curNode = Ret tree ->
    forms tree
    = open_forms root curNode ++ map erase tokens
      ++ replicate (length curNode + count_type LP tokens
                    - count_type RP tokens) Close.
Proof.
  induction tokens as [|t ts IH]; intros root curNode tree Hsp H.
  - simpl in H. injection H as <-. simpl.
    rewrite !count_type_nil, Nat.add_0_r, Nat.sub_0_r.
    apply forms_closed. exact Hsp.
  - rewrite !count_type_cons. simpl in H.
    change (map erase (t :: ts)) with (erase t :: map erase ts).
    unfold erase at 1.
    destruct (Token.type t) eqn:Hty;
      repeat (destruct (decide _) as [?|?]; try discriminate; try congruence).
    1,2,5,6:
      (destruct (open_forms_emplace_back (new_ListNode_atom t) curNode
                   root Hsp) as [E Hsp'];
       rewrite (IH _ _ _ Hsp' H), E;
       simpl; rewrite <- !app_assoc; reflexivity).
    + destruct (open_forms_descend curNode root Hsp) as [E Hsp'].
      unfold push_back in H. rewrite <- (ancestors_snoc curNode
        (child_size root curNode)) in H.
      rewrite (IH _ _ _ Hsp' H), E, length_app.
      simpl. rewrite <- !app_assoc. simpl. do 4 f_equal. lia.
    + destruct (ancestors curNode) as [|a l] eqn:Hanc; [discriminate H|].
      cbn [length Nat.eqb negb assert bind] in H.
      destruct (ancestors_pop curNode) as (p0 & i & -> & Hb & Hp);
        [rewrite Hanc; discriminate|].
      rewrite Hanc in Hb, Hp. rewrite Hb, Hp in H.
      destruct (open_forms_ascend i p0 root Hsp) as [E Hsp'].
      rewrite (IH _ _ _ Hsp' H), E, length_app.
      simpl. rewrite <- !app_assoc. simpl. do 4 f_equal. lia.
Qed.

Lemma getLists_forms_eq (tokens : TokenArray) (tree : ListNode) :
  getLists tokens = Ret tree ->
  forms tree
  = map erase tokens
    ++ replicate (count_type LP tokens - count_type RP tokens) Close.
Proof.
  intros H. unfold getLists in H.
  apply (getLists_loop_forms tokens _ [] tree) in H; [|exact I].
  exact H.
Qed.

(** X9. Reading the tree of [getLists] back, with a mark where a list
    opens and where it closes, gives the token sequence again, followed by
    one closing mark for each list the tokens left open: no token is lost,
    added or moved, and a list left open is closed at the end of input. *)
Theorem getLists_forms (tokens : TokenArray) (tree : ListNode) :
  getLists tokens = Ret tree ->
  forms tree
  = map erase tokens
    ++ replicate (count_type LP tokens - count_type RP tokens) Close.
Proof.
  intros H. unfold getLists in H.
  apply (getLists_loop_forms tokens (ListNode.mk (Some true) None []) [] tree)
    in H; [|exact I].
  simpl in H. exact H.
Qed.

Lemma getLists_forms_witness :
  exists tree,
    getLists [tk LP 0 1; tk NAME 1 2; tk LP 3 4; tk RP 4 5; tk LP 6 7;
              tk STRING 8 9] = Ret tree
    /\ forms tree
       = [Open; Leaf (tk NAME 1 2); Open; Close; Open; Leaf (tk STRING 8 9);
          Close; Close].
Proof.
  eexists. split; [reflexivity|].
  rewrite (getLists_forms
             [tk LP 0 1; tk NAME 1 2; tk LP 3 4; tk RP 4 5; tk LP 6 7;
              tk STRING 8 9] _ eq_refl).
  reflexivity.
Defined.

Lemma leaves_cons (it : Item) (items : list Item) :
  leaves (it :: items)
  = match it with
    | Leaf t => t :: leaves items
    | _ => leaves items
    end.
Proof. destruct it; reflexivity. Qed.

Lemma leaves_erase (tokens : TokenArray) :
  leaves (map erase tokens) = filter (fun t => is_paren t = false) tokens.
Proof.
  induction tokens as [|t ts IH]; [reflexivity|].
  change (map erase (t :: ts)) with (erase t :: map erase ts).
  rewrite leaves_cons, IH. unfold erase.
  destruct (Token.type t) eqn:Hty;
    try (rewrite filter_cons_True
           by (unfold is_paren; rewrite Hty; reflexivity));
    try (rewrite filter_cons_False
           by (unfold is_paren; rewrite Hty; discriminate));
    reflexivity.
Qed.

Lemma leaves_closers (k : nat) : leaves (replicate k Close) = [].
Proof. induction k as [|k IH]; [reflexivity | exact IH]. Qed.

(** X10. The atoms of the tree, read from left to right, hold exactly the
    tokens that are no parentheses, each once and in the order of the
    token sequence. *)
Theorem getLists_atoms_in_order (tokens : TokenArray) (tree : ListNode) :
  getLists tokens = Ret tree ->
  leaves (forms tree) = filter (fun t => is_paren t = false) tokens.
Proof.
  intros H. rewrite (getLists_forms_eq tokens tree H).
  unfold leaves. rewrite omap_app.
  fold (leaves (map erase tokens)).
  fold (leaves (replicate (count_type LP tokens - count_type RP tokens) Close)).
  rewrite leaves_erase, leaves_closers, app_nil_r. reflexivity.
Qed.

Lemma getLists_atoms_in_order_witness :
  exists tree,
    parse_lists (src "(b (a) c) d ") = Ret tree
    /\ leaves (forms tree)
       = [tk NAME 1 2; tk NAME 4 5; tk NAME 7 8; tk NAME 10 11].
Proof.
  eexists. split; [vm_compute; reflexivity|].
  apply (getLists_atoms_in_order
           [tk LP 0 1; tk NAME 1 2; tk LP 3 4; tk NAME 4 5; tk RP 5 6;
            tk NAME 7 8; tk RP 8 9; tk NAME 10 11]).
  vm_compute. reflexivity.
Defined.

(** ** When [getLists] returns *)

(** X8. [getLists] returns a tree exactly when no closing parenthesis
    comes without a list open, that is when no prefix of the token
    sequence holds more [RightParen] than [LeftParen] tokens; whether
    lists remain open at the end plays no part. *)
Theorem getLists_returns_iff (tokens : TokenArray) :
  (exists tree, getLists tokens = Ret tree)
  <-> forall k, count_type RP (take k tokens)
                <= count_type LP (take k tokens).
Proof.
  split.
  - intros [tree H] k.
    destruct (le_lt_dec (count_type RP (take k tokens))
                (count_type LP (take k tokens))) as [Hle|Hlt];
      [exact Hle|].
    exfalso. unfold getLists in H.
    rewrite (getLists_loop_unmatched tokens _ [] []) in H;
      [discriminate H|].
    exists k. simpl. exact Hlt.
  - intros Hbal.
    destruct (getLists_loop_returns tokens
                (ListNode.mk (Some true) None []) [] [])
      as (tree & Hr & _).
    + unfold valid. simpl. eauto.
    + constructor.
    + intros k. simpl. apply Hbal.
    + exists tree. exact Hr.
Qed.

(** ** Nesting depth *)

(** Induction on a node with the property assumed of all its children. *)
Lemma ListNode_children_ind (P : ListNode -> Prop) :
  (forall il tok ch, Forall P ch -> P (ListNode.mk il tok ch)) ->
  forall n, P n.
Proof.
  intros Hstep.
  refine (fix go (n : ListNode) : P n :=
            match n with
            | ListNode.mk il tok ch =>
                Hstep il tok ch
                  ((fix go_list (l : list ListNode) : Forall P l :=
                      match l with
                      | [] => @List.Forall_nil _ P
                      | c :: l' =>
                          @List.Forall_cons _ P c l' (go c) (go_list l')
                      end) ch)
            end).
Qed.

Lemma item_peak_ge (items : list Item) :
  forall (level : nat), level <= item_peak level items.
Proof.
  induction items as [|[| |t] r IH]; intros level; simpl.
  - lia.
  - specialize (IH (S level)). lia.
  - lia.
  - apply IH.
Qed.

Lemma item_peak_children (ch : list ListNode) :
  Forall (fun c => forall level rest,
            item_peak level (unparse c ++ rest)
            = Nat.max (level + depth c) (item_peak level rest)) ch ->
  forall (level : nat) (rest : list Item),
    item_peak level (concat (map unparse ch) ++ rest)
    = Nat.max (level + list_max (map depth ch)) (item_peak level rest).
Proof.
  induction 1 as [|c ch Hc _ IH]; intros level rest; simpl.
  - pose proof (item_peak_ge rest level). lia.
  - rewrite <- app_assoc, Hc, IH. lia.
Qed.

Lemma item_peak_unparse (n : ListNode) :
  forall (level : nat) (rest : list Item),
    item_peak level (unparse n ++ rest)
    = Nat.max (level + depth n) (item_peak level rest).
Proof.
  induction n as [il tok ch IH] using ListNode_children_ind.
  intros level rest.
  assert (Hlist : item_peak level
                    ((Open :: concat (map unparse ch) ++ [Close]) ++ rest)
                  = Nat.max (level + S (list_max (map depth ch)))
                      (item_peak level rest)).
  { simpl. rewrite <- app_assoc, (item_peak_children ch IH). simpl.
    rewrite Nat.sub_0_r. lia. }
  pose proof (item_peak_ge rest level) as Hge.
  destruct il as [[|]|]; [exact Hlist | | exact Hlist].
  destruct tok as [t|]; simpl; lia.
Qed.

Lemma item_peak_forms (root : ListNode) (rest : list Item) :
  item_peak 0 (forms root ++ rest)
  = Nat.max (nesting root) (item_peak 0 rest).
Proof.
  unfold forms, nesting. rewrite item_peak_children; [reflexivity|].
  apply Forall_forall. intros c _. apply item_peak_unparse.
Qed.

Lemma item_peak_erase (tokens : TokenArray) :
  forall (level : nat) (rest : list Item),
    (forall l, item_peak l rest = l) ->
    item_peak level (map erase tokens ++ rest) = peak_from level tokens.
Proof.
  induction tokens as [|t ts IH]; intros level rest Hrest.
  - simpl. apply Hrest.
  - change (map erase (t :: ts) ++ rest)
      with (erase t :: (map erase ts ++ rest)).
    unfold erase at 1. simpl peak_from.
    destruct (Token.type t); simpl; rewrite IH by exact Hrest; reflexivity.
Qed.

Lemma item_peak_closers (k : nat) :
  forall (level : nat), item_peak level (replicate k Close) = level.
Proof.
  induction k as [|k IH]; intros level; simpl; [reflexivity|].
  rewrite IH. lia.
Qed.

(** X11. The nesting depth of the tree [getLists] returns is the highest
    number of lists open at once while reading the tokens. *)
Theorem getLists_nesting_depth (tokens : TokenArray) (tree : ListNode) :
  getLists tokens = Ret tree ->
  nesting tree = peak tokens.
Proof.
  intros H. apply getLists_forms_eq in H.
  pose proof (item_peak_forms tree []) as Hn.
  rewrite app_nil_r in Hn. simpl in Hn. rewrite Nat.max_0_r in Hn.
  rewrite <- Hn, H. unfold peak.
  apply item_peak_erase. intros l. apply item_peak_closers.
Qed.

Lemma getLists_nesting_depth_witness :
  exists tree,
    parse_lists (src "(a (b (c)) (d") = Ret tree /\ nesting tree = 3.
Proof.
  eexists. split; [vm_compute; reflexivity|].
  apply (getLists_nesting_depth
           [tk LP 0 1; tk NAME 1 2; tk LP 3 4; tk NAME 4 5; tk LP 6 7;
            tk NAME 7 8; tk RP 8 9; tk RP 9 10; tk LP 11 12]).
  vm_compute. reflexivity.
Defined.

(** ** Printing the tree *)

Section Printing.
Variable to_string_f32 : float -> list ascii.
Variable pText : list ascii.

Lemma getLists_loop_flat (tokens : TokenArray) :
  forall (root : ListNode),
    Forall (fun t => is_paren t = false) tokens ->
    getLists_loop tokens root [] []
    = Ret (ListNode.mk (ListNode.isList root) (ListNode.token root)
             (ListNode.child root ++ map new_ListNode_atom tokens)).
Proof.
  induction tokens as [|t ts IH]; intros root Hflat.
  - simpl. rewrite app_nil_r. destruct root. reflexivity.
  - pose proof (Forall_inv Hflat) as Ht. unfold is_paren in Ht.
    simpl. destruct (Token.type t) eqn:Hty; try discriminate Ht;
      rewrite IH by apply (Forall_inv_tail Hflat);
      simpl; rewrite <- app_assoc; reflexivity.
Qed.

Lemma print_children_atoms (tokens : TokenArray) :
  print_children
    (map (print_ListNode to_string_f32 pText)
       (map new_ListNode_atom tokens))
  = Some (concat (map (fun t => src "*"
                                ++ print_Token to_string_f32 pText t
                                ++ src " ") tokens)).
Proof.
  induction tokens as [|t ts IH]; [reflexivity|].
  simpl in *. rewrite IH, <- app_assoc. reflexivity.
Qed.

Lemma print_children_app_None (l1 l2 : list (option (list ascii))) :
  print_children l1 = None \/ print_children l2 = None ->
  print_children (l1 ++ l2) = None.
Proof.
  induction l1 as [|o l1 IH]; intros H; simpl in *.
  - destruct H as [H|H]; [discriminate H | exact H].
  - destruct o as [s|]; [|reflexivity].
    rewrite IH; [reflexivity|].
    destruct H as [H|H]; [|right; exact H].
    left. destruct (print_children l1); [discriminate H | reflexivity].
Qed.

Lemma print_children_alter_None (f : ListNode -> ListNode) (i : nat) :
  forall (ch : list ListNode),
    (forall c, ch !! i = Some c ->
               print_ListNode to_string_f32 pText (f c) = None) ->
    is_Some (ch !! i) ->
    print_children (map (print_ListNode to_string_f32 pText) (alter f i ch))
    = None.
Proof.
  induction i as [|i IH]; intros [|c ch] Hf [x Hx]; try discriminate Hx.
  - simpl. rewrite (Hf c eq_refl). reflexivity.
  - change (alter f (S i) (c :: ch)) with (c :: alter f i ch). simpl.
    rewrite (IH ch); [destruct (print_ListNode _ _ c); reflexivity | | eauto].
    intros c' Hc'. apply Hf. exact Hc'.
Qed.

Lemma print_children_alter_keep (f : ListNode -> ListNode) :
  forall (ch : list ListNode) (i : nat),
    (forall c, print_ListNode to_string_f32 pText c = None ->
               print_ListNode to_string_f32 pText (f c) = None) ->
    print_children (map (print_ListNode to_string_f32 pText) ch) = None ->
    print_children (map (print_ListNode to_string_f32 pText) (alter f i ch))
    = None.
Proof.
  induction ch as [|c ch IH]; intros i Hf H; [discriminate H|].
  destruct i as [|i].
  - simpl in *.
    destruct (print_ListNode to_string_f32 pText c) as [s|] eqn:Hc.
    + destruct (print_children _); [discriminate H|].
      destruct (print_ListNode _ _ (f c)); reflexivity.
    + rewrite (Hf c Hc). reflexivity.
  - change (alter f (S i) (c :: ch)) with (c :: alter f i ch). simpl in *.
    destruct (print_ListNode to_string_f32 pText c) as [s|]; [|reflexivity].
    rewrite IH; [reflexivity | exact Hf |].
    destruct (print_children _); [discriminate H | reflexivity].
Qed.

(** Once undefined, the dump stays undefined whatever is appended. *)
Lemma print_emplace_back_None (newNode : ListNode) (p : NodePtr) :
  forall (n : ListNode),
    print_ListNode to_string_f32 pText n = None ->
    print_ListNode to_string_f32 pText (emplace_back n p newNode) = None.
Proof.
  induction p as [|i p IH]; intros [[[|]|] tok ch] H; simpl in *;
    try reflexivity; try exact H.
  - rewrite List.map_app, print_children_app_None; [reflexivity|].
    left. destruct (print_children _); [discriminate H | reflexivity].
  - rewrite print_children_alter_keep; [reflexivity | apply IH |].
    destruct (print_children _); [discriminate H | reflexivity].
Qed.

(** Appending the node of a [LeftParen] below lists makes the dump
    undefined. *)
Lemma print_descend_None (p : NodePtr) :
  forall (n : ListNode),
    is_atom n = false -> spine n p ->
    print_ListNode to_string_f32 pText (emplace_back n p new_ListNode)
    = None.
Proof.
  induction p as [|i p IH]; intros [[[|]|] tok ch] Hat Hsp;
    try discriminate Hat; try reflexivity.
  - simpl. rewrite List.map_app, print_children_app_None; [reflexivity|].
    right. reflexivity.
  - simpl in *. destruct Hsp as [Hlen Hsp].
    destruct (ch !! i) as [c|] eqn:Hc; [|contradiction].
    destruct Hsp as [Hc_at Hsp].
    rewrite (print_children_alter_None _ i ch); [reflexivity | | eauto].
    intros c' Hc'. rewrite Hc in Hc'. injection Hc' as <-.
    apply IH; assumption.
Qed.

Lemma getLists_loop_print_None (tokens : TokenArray) :
  forall (root : ListNode) (curNode : NodePtr) (tree : ListNode),
    is_atom root = false -> spine root curNode ->
    getLists_loop tokens root (ancestors curNode) curNode = Ret tree ->
    print_ListNode to_string_f32 pText root = None
    \/ count_type LP tokens <> 0 ->
    print_ListNode to_string_f32 pText tree = None.
Proof.
  induction tokens as [|t ts IH]; intros root curNode tree Hat Hsp H Hor.
  - simpl in H. injection H as <-.
    destruct Hor as [Hn|Hc]; [exact Hn|].
    rewrite count_type_nil in Hc. congruence.
  - rewrite count_type_cons in Hor. simpl in H.
    destruct (Token.type t) eqn:Hty;
      repeat (destruct (decide _) as [?|?] in Hor;
              try discriminate; try congruence).
    1,2,5,6:
      (destruct (open_forms_emplace_back (new_ListNode_atom t) curNode
                   root Hsp) as [_ Hsp'];
       apply (IH _ _ _ ltac:(rewrite is_atom_emplace_back; exact Hat)
                Hsp' H);
       destruct Hor as [Hn|Hc];
       [left; apply print_emplace_back_None; exact Hn | right; exact Hc]).
    + destruct (open_forms_descend curNode root Hsp) as [_ Hsp'].
      unfold push_back in H.
      rewrite <- (ancestors_snoc curNode (child_size root curNode)) in H.
      apply (IH _ _ _ ltac:(rewrite is_atom_emplace_back; exact Hat)
               Hsp' H).
      left. apply print_descend_None; assumption.
    + destruct (ancestors curNode) as [|a l] eqn:Hanc; [discriminate H|].
      cbn [length Nat.eqb negb assert bind] in H.
      destruct (ancestors_pop curNode) as (p0 & i & -> & Hb & Hp);
        [rewrite Hanc; discriminate|].
      rewrite Hanc in Hb, Hp. rewrite Hb, Hp in H.
      destruct (open_forms_ascend i p0 root Hsp) as [_ Hsp'].
      apply (IH _ _ _ Hat Hsp' H). exact Hor.
Qed.

Lemma no_open_no_paren (tokens : TokenArray) :
  (forall k, count_type RP (take k tokens) <= count_type LP (take k tokens)) ->
  count_type LP tokens = 0 ->
  Forall (fun t => is_paren t = false) tokens.
Proof.
  induction tokens as [|t ts IH]; intros Hbal Hlp; [constructor|].
  rewrite count_type_cons in Hlp.
  pose proof (Hbal 1) as H1. simpl in H1.
  rewrite take_0, !count_type_cons, !count_type_nil in H1.
  destruct (decide (Token.type t = LP)) as [e|Hl]; [discriminate Hlp|].
  destruct (decide (Token.type t = RP)) as [e|Hr]; [simpl in H1; lia|].
  constructor.
  - unfold is_paren. rewrite !bool_decide_eq_false_2 by assumption.
    reflexivity.
  - apply IH; [|exact Hlp].
    intros k. specialize (Hbal (S k)).
    rewrite firstn_cons, !count_type_cons in Hbal.
    destruct (decide (Token.type t = LP)); [contradiction|].
    destruct (decide (Token.type t = RP)); [contradiction|].
    exact Hbal.
Qed.

(** X12. For a token sequence without parentheses [getLists] returns the
    root with one atom per token, and the tree prints as an opening
    parenthesis and a space, then each token printed after a star and
    followed by a space, then a closing parenthesis. *)
Theorem print_flat_tree (tokens : TokenArray) :
  Forall (fun t => is_paren t = false) tokens ->
  exists tree,
    getLists tokens = Ret tree
    /\ ListNode.child tree = map new_ListNode_atom tokens
    /\ print_ListNode to_string_f32 pText tree
       = Some (src "( "
               ++ concat (map (fun t => src "*"
                                        ++ print_Token to_string_f32 pText t
                                        ++ src " ") tokens)
               ++ src ")").
Proof.
  intros Hflat. eexists. split; [|split].
  - unfold getLists. apply getLists_loop_flat. exact Hflat.
  - reflexivity.
  - simpl. rewrite print_children_atoms. reflexivity.
Qed.

(** X13. The printer reads the [isList] member of every node, which the
    nodes created for a [LeftParen] never had written: printing the tree
    [getLists] returns is defined exactly when the token sequence has no
    [LeftParen]. *)
Theorem print_tree_defined_iff (tokens : TokenArray) (tree : ListNode) :
  getLists tokens = Ret tree ->
  (is_Some (print_ListNode to_string_f32 pText tree)
   <-> count_type LP tokens = 0).
Proof.
  intros H. split.
  - intros [s Hs].
    destruct (decide (count_type LP tokens = 0)) as [e|Hne]; [exact e|].
    unfold getLists in H.
    rewrite (getLists_loop_print_None tokens
               (ListNode.mk (Some true) None []) [] tree) in Hs;
      [discriminate Hs | reflexivity | exact I | exact H |].
    right. exact Hne.
  - intros Hlp.
    assert (Hflat : Forall (fun t => is_paren t = false) tokens).
    { apply no_open_no_paren; [|exact Hlp].
      intros k.
      destruct (le_lt_dec (count_type RP (take k tokens))
                  (count_type LP (take k tokens))) as [Hle|Hlt];
        [exact Hle|].
      exfalso. unfold getLists in H.
      rewrite (getLists_loop_unmatched tokens _ [] []) in H;
        [discriminate H|].
      exists k. simpl. exact Hlt. }
    unfold getLists in H.
    rewrite getLists_loop_flat in H by exact Hflat.
    injection H as <-. simpl. rewrite print_children_atoms. eauto.
Qed.
End Printing.

Lemma print_flat_tree_witness :
  exists tree,
    getLists [tk NAME 0 1; Token.mk I32 2 5 float_zero (-12)] = Ret tree
    /\ ListNode.child tree
       = map new_ListNode_atom
           [tk NAME 0 1; Token.mk I32 2 5 float_zero (-12)]
    /\ print_ListNode (fun _ => []) (src "a -12i32 ") tree
       = Some (src "( *[NAME a] *[I32 -12] )").
Proof.
  apply (print_flat_tree (fun _ => []) (src "a -12i32 ")
           [tk NAME 0 1; Token.mk I32 2 5 float_zero (-12)]).
  repeat constructor.
Defined.

Lemma print_tree_defined_iff_witness :
  is_Some (print_ListNode (fun _ => []) (src "(a)")
             (ListNode.mk (Some true) None
                [ListNode.mk None None [new_ListNode_atom (tk NAME 1 2)]]))
  <-> count_type LP [tk LP 0 1; tk NAME 1 2; tk RP 2 3] = 0.
Proof.
  apply (print_tree_defined_iff (fun _ => []) (src "(a)")
           [tk LP 0 1; tk NAME 1 2; tk RP 2 3]).
  reflexivity.
Defined.

(** ** When [tokenize] returns *)

Lemma appendText_plain (pText : list ascii) (pStart pEnd : nat)
    (outArray : TokenArray) :
  pStart <= pEnd -> pEnd <= length pText ->
  (forall j, take 3 (drop j pText) <> pat_f32) ->
  (forall j, take 3 (drop j pText) <> pat_i32) ->
  exists outArray', appendText pText pStart pEnd outArray = Ret outArray'.
Proof.
  intros Hle Hend Hf Hi. unfold appendText.
  case_bool_decide; [|eauto].
  pose proof (search_spec pText pat_f32 pStart pEnd Hle Hend) as Sf.
  pose proof (search_spec pText pat_i32 pStart pEnd Hle Hend) as Si.
  destruct (search pText pStart pEnd pat_f32) as [pC|].
  { exfalso. apply (Hf pC). apply Sf. }
  destruct (search pText pStart pEnd pat_i32) as [pC|].
  { exfalso. apply (Hi pC). apply Si. }
  eauto.
Qed.

Lemma count_quotes_cons (c : ascii) (s : list ascii) :
  count_quotes (c :: s)
  = (if Ascii.eqb c DQUOTE then 1 else 0) + count_quotes s.
Proof. unfold count_quotes. simpl. destruct (Ascii.eqb c DQUOTE); reflexivity. Qed.

Lemma tokenize_loop_returns (pText : list ascii) :
  (forall j, take 3 (drop j pText) <> pat_f32) ->
  (forall j, take 3 (drop j pText) <> pat_i32) ->
  forall (rest : list ascii) (pStart pEnd : nat) (inString : bool)
         (outArray : TokenArray),
    rest = drop pEnd pText ->
    pStart <= pEnd ->
    Nat.even (count_quotes (until_nul rest)) = negb inString ->
    exists tokens,
      tokenize_loop pText rest pStart pEnd inString outArray = Ret tokens.
Proof.
  intros Hf Hi.
  assert (Hend : forall inString outArray,
             true = negb inString ->
             exists tokens, tokenize_end inString outArray = Ret tokens).
  { intros [|] outArray H; [discriminate H | simpl; eauto]. }
  induction rest as [|c rest IH];
    intros pStart pEnd inString outArray Hrest Hle Hpar.
  - simpl. apply Hend. exact Hpar.
  - symmetry in Hrest. apply drop_cons_inv in Hrest.
    destruct Hrest as [Hc Hrest].
    pose proof (lookup_lt_Some _ _ _ Hc) as Hlt.
    simpl in Hpar |- *.
    destruct (Ascii.eqb c NUL) eqn:Ec; [apply Hend; exact Hpar|].
    rewrite count_quotes_cons in Hpar.
    destruct (appendText_plain pText pStart pEnd outArray Hle
                ltac:(lia) Hf Hi) as [o Ha].
    unfold tokenize_switch. rewrite Ha.
    destruct (is_blank c) eqn:Eb.
    { rewrite (is_blank_not_quote c Eb) in Hpar.
      destruct inString; simpl; apply IH; try assumption; try lia. }
    destruct (Ascii.eqb c LPAREN) eqn:El.
    { apply Ascii.eqb_eq in El. subst c.
      destruct inString; simpl; apply IH; try assumption; try lia. }
    destruct (Ascii.eqb c RPAREN) eqn:Er.
    { apply Ascii.eqb_eq in Er. subst c.
      destruct inString; simpl; apply IH; try assumption; try lia. }
    destruct (Ascii.eqb c DQUOTE) eqn:Eq.
    { rewrite Nat.even_succ, <- Nat.negb_even in Hpar.
      destruct inString; simpl; apply IH; try assumption; try lia;
        destruct (Nat.even _); simpl in *; congruence. }
    simpl. apply IH; try assumption; try lia.
Qed.

(** X14. [tokenize] fails for two reasons only, a numeric suffix and an
    unmatched quote: on a text in which neither [f32] nor [i32] occurs
    and whose quotes are even in number it returns a token sequence. *)
Theorem tokenize_returns (pText : list ascii) :
  (forall j, take 3 (drop j pText) <> pat_f32) ->
  (forall j, take 3 (drop j pText) <> pat_i32) ->
  Nat.even (count_quotes (until_nul pText)) = true ->
  exists tokens, tokenize pText = Ret tokens.
Proof.
  intros Hf Hi Hq. unfold tokenize.
  apply tokenize_loop_returns; try assumption; reflexivity.
Qed.

Lemma tokenize_returns_witness :
  exists tokens,
    tokenize ([LPAREN; DQUOTE] ++ src "a(" ++ [DQUOTE] ++ src " b) c")
    = Ret tokens.
Proof.
  apply (tokenize_returns
           ([LPAREN; DQUOTE] ++ src "a(" ++ [DQUOTE] ++ src " b) c")).
  - intros j. do 11 (destruct j as [|j]; [discriminate|]). discriminate.
  - intros j. do 11 (destruct j as [|j]; [discriminate|]). discriminate.
  - reflexivity.
Defined.

(** ** Text runs without a numeric suffix, anywhere in the text *)

Lemma is_blank_not_paren (c : ascii) :
  is_blank c = true ->
  Ascii.eqb c LPAREN = false /\ Ascii.eqb c RPAREN = false.
Proof.
  unfold is_blank. intros H.
  destruct (Ascii.eqb c SPACE) eqn:E1;
    [apply Ascii.eqb_eq in E1; subst c; split; reflexivity|].
  destruct (Ascii.eqb c LF) eqn:E2;
    [apply Ascii.eqb_eq in E2; subst c; split; reflexivity|].
  destruct (Ascii.eqb c CR) eqn:E3;
    [apply Ascii.eqb_eq in E3; subst c; split; reflexivity|].
  destruct (Ascii.eqb c TAB) eqn:E4;
    [apply Ascii.eqb_eq in E4; subst c; split; reflexivity|].
  discriminate H.
Qed.

(** A delimiter is a blank, or one of the three other characters. *)
Lemma is_delim_cases (d : ascii) :
  is_delim d = true ->
  is_blank d = true \/ d = LPAREN \/ d = RPAREN \/ d = DQUOTE.
Proof.
  unfold is_delim. intros H.
  destruct (is_blank d); [left; reflexivity|].
  destruct (Ascii.eqb d LPAREN) eqn:El;
    [apply Ascii.eqb_eq in El; right; left; exact El|].
  destruct (Ascii.eqb d RPAREN) eqn:Er;
    [apply Ascii.eqb_eq in Er; right; right; left; exact Er|].
  destruct (Ascii.eqb d DQUOTE) eqn:Eq;
    [apply Ascii.eqb_eq in Eq; right; right; right; exact Eq|].
  discriminate H.
Qed.

Lemma is_delim_not_inert (d : ascii) :
  is_delim d = true -> inert false d = false.
Proof.
  intros H. apply is_delim_cases in H. unfold inert.
  destruct H as [Hb | [-> | [-> | ->]]]; try reflexivity.
  rewrite Hb. destruct (negb _ && negb _); reflexivity.
Qed.

Lemma search_absent_shifted (pre run tail pPat : list ascii) :
  (forall a b, run <> a ++ pPat ++ b) ->
  search (pre ++ run ++ tail) (length pre) (length pre + length run) pPat
  = None.
Proof.
  intros Hno.
  pose proof (search_shift pre (run ++ tail) 0 (length run) pPat) as H.
  rewrite Nat.add_0_r in H. rewrite H.
  rewrite (search_absent run tail pPat Hno). reflexivity.
Qed.

Lemma appendText_name (pre run tail : list ascii) (outArray : TokenArray) :
  run <> [] ->
  (forall a b, run <> a ++ pat_f32 ++ b) ->
  (forall a b, run <> a ++ pat_i32 ++ b) ->
  appendText (pre ++ run ++ tail) (length pre) (length pre + length run)
    outArray
  = Ret (push_back outArray
           (tk NAME (length pre) (length pre + length run))).
Proof.
  intros Hne Hf Hi. unfold appendText.
  rewrite (search_absent_shifted pre run tail pat_f32 Hf).
  rewrite (search_absent_shifted pre run tail pat_i32 Hi).
  case_bool_decide as Hlen; [reflexivity|].
  exfalso. destruct run; [congruence|]. simpl in Hlen. lia.
Qed.

(** The scanner at the start of a run, outside a string literal: the run
    is passed over, its delimiter closes it as a [Name] token, and
    scanning goes on after the delimiter. *)
Lemma tokenize_loop_name_run (pre run post : list ascii) (d : ascii)
    (outArray : TokenArray) :
  run <> [] ->
  Forall (fun c => inert false c = true) run ->
  (forall a b, run <> a ++ pat_f32 ++ b) ->
  (forall a b, run <> a ++ pat_i32 ++ b) ->
  is_delim d = true ->
  tokenize_loop (pre ++ run ++ d :: post) (run ++ d :: post)
    (length pre) (length pre) false outArray
  = tokenize_loop (pre ++ run ++ d :: post) post
      (length pre + length run + 1) (length pre + length run + 1)
      (Ascii.eqb d DQUOTE)
      (let o := push_back outArray
                  (tk NAME (length pre) (length pre + length run)) in
       if Ascii.eqb d LPAREN
       then push_back o (tk LP (length pre + length run)
                           (length pre + length run + 1))
       else if Ascii.eqb d RPAREN
       then push_back o (tk RP (length pre + length run)
                           (length pre + length run + 1))
       else o).
Proof.
  intros Hne Hrun Hf Hi Hd.
  rewrite tokenize_loop_inert by exact Hrun.
  pose proof (appendText_name pre run (d :: post) outArray Hne Hf Hi) as Ha.
  replace (S (length pre + length run))
    with (length pre + length run + 1) by lia.
  cbn [tokenize_loop]. unfold tokenize_switch. rewrite Ha.
  replace (S (length pre + length run))
    with (length pre + length run + 1) by lia.
  apply is_delim_cases in Hd.
  destruct Hd as [Hb | [-> | [-> | ->]]]; try reflexivity.
  rewrite (is_blank_not_nul d Hb), Hb, (is_blank_not_quote d Hb).
  destruct (is_blank_not_paren d Hb) as [-> ->]. reflexivity.
Qed.

(** The tokens already emitted stay, in place, in what is returned. *)
Lemma tokenize_loop_extends (pText : list ascii) :
  forall (rest : list ascii) (pStart pEnd : nat) (inString : bool)
         (outArray tokens : TokenArray),
    tokenize_loop pText rest pStart pEnd inString outArray = Ret tokens ->
    exists more, tokens = outArray ++ more.
Proof.
  induction rest as [|c rest IH];
    intros pStart pEnd inString outArray tokens H; simpl in H.
  - destruct inString; [discriminate H|]. injection H as <-.
    exists []. rewrite app_nil_r. reflexivity.
  - destruct (Ascii.eqb c NUL).
    { destruct inString; [discriminate H|]. injection H as <-.
      exists []. rewrite app_nil_r. reflexivity. }
    apply bind_Ret_inv in H.
    destruct H as ([[pStart' inString'] outArray'] & Hsw & H).
    apply IH in H. destruct H as [more ->].
    assert (Hout : exists m, outArray' = outArray ++ m).
    { assert (Happ : forall o, appendText pText pStart pEnd outArray = Ret o ->
                               exists m, o = outArray ++ m).
      { intros o Ha. apply appendText_inv in Ha.
        destruct Ha as [[_ ->]|[_ (t & -> & _)]];
          [exists []; rewrite app_nil_r; reflexivity | eauto]. }
      switch_cases Hsw;
        try (exists []; rewrite app_nil_r; reflexivity);
        try (unfold push_back; eauto; fail);
        match goal with
        | Ha : appendText _ _ _ _ = Ret _ |- _ =>
            apply Happ in Ha; destruct Ha as [m ->]
        end;
        unfold push_back; rewrite <- ?app_assoc; eauto. }
    destruct Hout as [m ->]. rewrite <- app_assoc. eauto.
Qed.

(** Scanning a stretch of text without NUL, when the whole scan returns:
    the stretch only flips [inString] once per quote, and [pStart] stays
    at or before [pEnd]. *)
Lemma tokenize_loop_stretch (pText tail : list ascii) :
  forall (stretch : list ascii) (pStart pEnd : nat) (inString : bool)
         (outArray tokens : TokenArray),
    Forall (fun c => c <> NUL) stretch ->
    pStart <= pEnd ->
    tokenize_loop pText (stretch ++ tail) pStart pEnd inString outArray
    = Ret tokens ->
    exists pStart' outArray',
      pStart' <= pEnd + length stretch
      /\ tokenize_loop pText tail pStart' (pEnd + length stretch)
           (xorb inString (Nat.odd (count_quotes stretch))) outArray'
         = Ret tokens.
Proof.
  induction stretch as [|c stretch IH];
    intros pStart pEnd inString outArray tokens Hnn Hle H.
  - exists pStart, outArray. simpl. rewrite Nat.add_0_r, xorb_false_r.
    split; [exact Hle | exact H].
  - pose proof (Forall_inv Hnn) as Hc. simpl in H.
    apply Ascii.eqb_neq in Hc. rewrite Hc in H. apply Ascii.eqb_neq in Hc.
    apply bind_Ret_inv in H.
    destruct H as ([[pStart' inString'] outArray'] & Hsw & H).
    pose proof (tokenize_switch_pStart _ _ _ _ _ _ _ _ _ Hle Hsw) as Hle'.
    apply IH in H; [|apply (Forall_inv_tail Hnn)|exact Hle'].
    destruct H as (ps & o & Hps & H).
    exists ps, o. simpl length.
    replace (pEnd + S (length stretch)) with (S pEnd + length stretch) by lia.
    split; [exact Hps|].
    rewrite count_quotes_cons.
    assert (Hb : inString'
                 = xorb inString (if Ascii.eqb c DQUOTE then true else false)).
    { apply tokenize_switch_inv in Hsw; [|exact Hc].
      destruct Hsw as [(Hin & _ & -> & _)
                      |[(-> & -> & _ & o' & _ & Hcase)
                       |[(-> & -> & _ & -> & _)
                        |(-> & -> & _ & -> & _)]]];
        try reflexivity.
      - rewrite (inert_not_quote _ _ Hin), xorb_false_r. reflexivity.
      - destruct Hcase as [[Hb _]|[[-> _]|[-> _]]]; try reflexivity.
        rewrite (is_blank_not_quote c Hb). reflexivity. }
    rewrite Hb in H.
    replace (xorb inString
               (Nat.odd ((if Ascii.eqb c DQUOTE then 1 else 0)
                         + count_quotes stretch)))
      with (xorb (xorb inString
                    (if Ascii.eqb c DQUOTE then true else false))
              (Nat.odd (count_quotes stretch))); [exact H|].
    destruct (Ascii.eqb c DQUOTE); simpl.
    + rewrite Nat.odd_succ, <- Nat.negb_odd.
      destruct inString, (Nat.odd (count_quotes stretch)); reflexivity.
    + rewrite xorb_false_r. reflexivity.
Qed.

(** After a delimiter met outside a string literal, or after the closing
    quote of one, a run starts: [pStart] has caught up with [pEnd]. *)
Lemma tokenize_loop_after_delim (pText tail : list ascii) (c : ascii)
    (pStart pEnd : nat) (inString : bool) (outArray tokens : TokenArray) :
  c <> NUL -> is_delim c = true ->
  xorb inString (Ascii.eqb c DQUOTE) = false ->
  tokenize_loop pText (c :: tail) pStart pEnd inString outArray
  = Ret tokens ->
  exists outArray',
    tokenize_loop pText tail (pEnd + 1) (pEnd + 1) false outArray'
    = Ret tokens.
Proof.
  intros Hc Hd Hx H. simpl in H.
  apply Ascii.eqb_neq in Hc. rewrite Hc in H. apply Ascii.eqb_neq in Hc.
  apply bind_Ret_inv in H.
  destruct H as ([[pStart' inString'] outArray'] & Hsw & H).
  replace (S pEnd) with (pEnd + 1) in H by lia.
  apply tokenize_switch_inv in Hsw; [|exact Hc].
  destruct Hsw as [(Hin & _ & -> & _)
                  |[(-> & -> & -> & o' & _ & Hcase)
                   |[(-> & -> & -> & -> & _)
                    |(-> & -> & -> & -> & _)]]].
  - exfalso. rewrite (inert_not_quote _ _ Hin), xorb_false_r in Hx.
    subst inString. rewrite (is_delim_not_inert c Hd) in Hin.
    discriminate Hin.
  - eauto.
  - discriminate Hx.
  - eauto.
Qed.

(** C3, amended. A text run is a non-empty stretch of characters other
    than NUL, blank, parenthesis and quote. A run in which neither [f32]
    nor [i32] occurs anywhere, closed by a delimiter (a blank, a
    parenthesis or a quote), is classified as a [Name] token spanning the
    whole run, wherever it stands in the text: the scanner at the start of
    the run, outside a string literal, passes over it without failing,
    appends that token when it meets the delimiter, and goes on after the
    delimiter; and when the run stands at the start of the text or after a
    delimiter, outside string literals, every token sequence [tokenize]
    returns for the text holds that token. The run [42] closed by a blank
    yields the single token [Name]. *)
Theorem tokenize_name_run (pre run post : list ascii) (d : ascii) :
  run <> [] ->
  Forall (fun c => inert false c = true) run ->
  (forall a b, run <> a ++ pat_f32 ++ b) ->
  (forall a b, run <> a ++ pat_i32 ++ b) ->
  is_delim d = true ->
  let pText := pre ++ run ++ d :: post in
  let name := tk NAME (length pre) (length pre + length run) in
  span_text pText name = run
  /\ (forall outArray,
        tokenize_loop pText (run ++ d :: post)
          (length pre) (length pre) false outArray
        = tokenize_loop pText post
            (length pre + length run + 1) (length pre + length run + 1)
            (Ascii.eqb d DQUOTE)
            (let o := push_back outArray name in
             if Ascii.eqb d LPAREN
             then push_back o (tk LP (length pre + length run)
                                 (length pre + length run + 1))
             else if Ascii.eqb d RPAREN
             then push_back o (tk RP (length pre + length run)
                                 (length pre + length run + 1))
             else o))
  /\ (Forall (fun c => c <> NUL) pre ->
      Nat.even (count_quotes pre) = true ->
      pre = [] \/ (exists pre' c, pre = pre' ++ [c] /\ is_delim c = true) ->
      forall tokens, tokenize pText = Ret tokens -> In name tokens)
  /\ (pre = [] -> post = [] -> is_blank d = true ->
      tokenize pText = Ret [name])
  /\ tokenize (src "42 ") = Ret [tk NAME 0 2].
Proof.
  intros Hne Hrun Hf Hi Hd pText name.
  assert (Hloop : forall outArray,
            tokenize_loop pText (run ++ d :: post)
              (length pre) (length pre) false outArray
            = tokenize_loop pText post
                (length pre + length run + 1) (length pre + length run + 1)
                (Ascii.eqb d DQUOTE)
                (let o := push_back outArray name in
                 if Ascii.eqb d LPAREN
                 then push_back o (tk LP (length pre + length run)
                                     (length pre + length run + 1))
                 else if Ascii.eqb d RPAREN
                 then push_back o (tk RP (length pre + length run)
                                     (length pre + length run + 1))
                 else o)).
  { intros outArray. apply tokenize_loop_name_run; assumption. }
  assert (Hin : forall outArray tokens,
            tokenize_loop pText (run ++ d :: post)
              (length pre) (length pre) false outArray = Ret tokens ->
            In name tokens).
  { intros outArray tokens H. rewrite Hloop in H.
    apply tokenize_loop_extends in H. destruct H as [more ->].
    cbv zeta. unfold push_back.
    destruct (Ascii.eqb d LPAREN); [|destruct (Ascii.eqb d RPAREN)];
      rewrite <- ?app_assoc; apply in_or_app; right;
      apply in_or_app; left; left; reflexivity. }
  split; [|split; [exact Hloop | split; [|split]]].
  - unfold span_text, pText, name, tk. cbn [Token.pStart Token.pEnd].
    replace (length pre + length run - length pre) with (length run) by lia.
    rewrite drop_app_length, take_app_length. reflexivity.
  - intros Hnn Hev Hpre tokens H. unfold tokenize in H.
    destruct Hpre as [->|(pre' & c & -> & Hc)].
    + simpl in *. apply (Hin [] tokens). exact H.
    + apply Forall_app in Hnn. destruct Hnn as [Hnn' Hcn].
      apply Forall_inv in Hcn.
      unfold pText in H. rewrite <- !app_assoc in H.
      apply (tokenize_loop_stretch _ _ pre' 0 0 false [] tokens Hnn')
        in H; [|lia].
      destruct H as (ps & o & _ & H). simpl in H.
      apply tokenize_loop_after_delim in H; [|exact Hcn|exact Hc|].
      * destruct H as [o' H].
        apply (Hin o' tokens). unfold pText.
        rewrite length_app. simpl length.
        rewrite <- !app_assoc. exact H.
      * unfold count_quotes in Hev.
        rewrite List.filter_app, length_app in Hev. simpl in Hev.
        fold (count_quotes pre') in Hev.
        rewrite <- Nat.negb_odd in Hev.
        destruct (Ascii.eqb c DQUOTE); simpl in Hev |- *.
        -- rewrite Nat.add_1_r, Nat.odd_succ, <- Nat.negb_odd in Hev.
           destruct (Nat.odd (count_quotes pre')); [reflexivity|discriminate Hev].
        -- rewrite Nat.add_0_r in Hev.
           destruct (Nat.odd (count_quotes pre')); [discriminate Hev|reflexivity].
  - intros -> -> Hb. unfold tokenize, pText. simpl app.
    pose proof (Hloop []) as E. unfold pText in E. simpl app in E.
    simpl length in E. rewrite E.
    rewrite (is_blank_not_quote d Hb).
    destruct (is_blank_not_paren d Hb) as [-> ->]. reflexivity.
  - reflexivity.
Qed.

Lemma tokenize_name_run_witness :
  let pText := src "(ab cd)" in
  let name := tk NAME 4 6 in
  span_text pText name = src "cd"
  /\ (forall outArray,
        tokenize_loop pText (src "cd)") 4 4 false outArray
        = tokenize_loop pText [] 7 7 false
            (push_back (push_back outArray name) (tk RP 6 7)))
  /\ (forall tokens, tokenize pText = Ret tokens -> In name tokens)
  /\ tokenize pText = Ret [tk LP 0 1; tk NAME 1 3; name; tk RP 6 7].
Proof.
  destruct (tokenize_name_run (src "(ab ") (src "cd") [] RPAREN)
    as (H1 & H2 & H3 & _).
  - discriminate.
  - repeat constructor.
  - intros [|x [|y [|z a]]] b H; vm_compute in H; discriminate H.
  - intros [|x [|y [|z a]]] b H; vm_compute in H; discriminate H.
  - reflexivity.
  - split; [exact H1|]. split; [exact H2|]. split; [|reflexivity].
    apply H3.
    + repeat constructor; discriminate.
    + reflexivity.
    + right. exists (src "(ab"), SPACE. split; reflexivity.
Defined.

(** ** [strtof] yields binary32 values *)

(** The value of [strtof] is the binary32 number nearest to the decimal
    read: [0.1] is not representable and becomes 13421773 / 2^27,
    16777217 = 2^24 + 1 is a tie and goes to the even neighbour, what is
    below half of the least subnormal becomes zero, and what exceeds the
    largest finite number by half a unit in the last place or more
    becomes the infinity. *)
Lemma strtof_binary32_examples :
  strtof (src "0.1f32") = (Fnum false (13421773 # 134217728), 3)
  /\ strtof (src "-0.1f32") = (Fnum true (13421773 # 134217728), 4)
  /\ strtof (src "3.5f32") = (Fnum false (7 # 2), 3)
  /\ strtof (src "16777217f32") = (Fnum false (inject_Z 16777216), 8)
  /\ strtof (src "16777219f32") = (Fnum false (inject_Z 16777220), 8)
  /\ strtof (src "1e-46f32") = (Fnum false 0, 5)
  /\ strtof (src "3.4028235e38f32")
     = (Fnum false (inject_Z (2 ^ 128 - 2 ^ 104)), 12)
  /\ strtof (src "3.4028236e38f32") = (Finf false, 12)
  /\ strtof (src "1e40f32") = (Finf false, 4)
  /\ tokenize (src "0.1f32 1e40f32 ")
     = Ret [Token.mk F32 0 3 (Fnum false (13421773 # 134217728)) 0;
            Token.mk F32 7 11 (Finf false) 0].
Proof. repeat split; vm_compute; reflexivity. Qed.
